(** * vargram-bot: the content model ([vargram_bot/model.py])

    A shallow embedding of the mail, subreddit and feed entities of
    [vargram_bot/model.py], of the collections that hold them and of their
    text and HTML renderings, followed by the properties the specification
    states about them. *)

From Stdlib Require Import String Ascii NArith ZArith Arith Bool List Lia.
Import ListNotations.

Set Implicit Arguments.

(** ** Python values used by the model *)

(** A Python [str] is a sequence of Unicode code points. *)
Definition char := N.
Definition str := list char.

(** An ASCII literal of the source, read as code points. *)
Definition lit (s : string) : str :=
  map N_of_ascii (list_ascii_of_string s).

Definition nl : str := [10%N].          (* line feed *)
Definition tab : str := [9%N].          (* horizontal tab *)
Definition quot : str := [34%N].        (* double quote *)
Definition rbracket : char := 93%N.     (* closing square bracket *)
Definition amp : char := 38%N.          (* ampersand *)
Definition lt : char := 60%N.           (* less-than sign *)
Definition gt : char := 62%N.           (* greater-than sign *)
Definition dquote : char := 34%N.       (* double quote *)
Definition squote : char := 39%N.       (* apostrophe *)
Definition watch : str := [8986%N].     (* U+231A, the glyph of Article.html *)

Fixpoint str_eqb (a b : str) : bool :=
  match a, b with
  | [], [] => true
  | x :: a', y :: b' => N.eqb x y && str_eqb a' b'
  | _, _ => false
  end.

(** Exceptions the modelled operations raise. *)
Inductive exn : Type :=
| ValueError
| TypeError.

Inductive result (A : Type) : Type :=
| Ok (a : A)
| Raise (e : exn).
Arguments Ok {A} a.
Arguments Raise {A} e.

Definition bind {A B} (r : result A) (k : A -> result B) : result B :=
  match r with
  | Ok a => k a
  | Raise e => Raise e
  end.

Notation "x <- r ;; k" := (bind r (fun x => k))
  (at level 61, r at next level, right associativity).

(** [try: body except: handler], with a bare [except] clause. *)
Definition try_except {A} (body : result A) (handler : A) : A :=
  match body with
  | Ok a => a
  | Raise _ => handler
  end.

(** [s.index(c)]: position of the first [c], [ValueError] when there is none. *)
Fixpoint str_index (s : str) (c : char) : result nat :=
  match s with
  | [] => Raise ValueError
  | x :: s' => if N.eqb x c then Ok 0
               else i <- str_index s' c ;; Ok (S i)
  end.

(** [s[i:]] for a non-negative [i]; slicing never raises. *)
Definition slice_from (s : str) (i : nat) : str := skipn i s.

(** [s.replace(old, new)] for a one-character [old]. *)
Definition str_replace (s : str) (old : char) (new : str) : str :=
  flat_map (fun c => if N.eqb c old then new else [c]) s.

(** [html.escape(s)] of the Python library, [quote=True]. *)
Definition html_escape (s : str) : str :=
  let s := str_replace s amp (lit "&amp;") in
  let s := str_replace s lt (lit "&lt;") in
  let s := str_replace s gt (lit "&gt;") in
  let s := str_replace s dquote (lit "&quot;") in
  let s := str_replace s squote (lit "&#x27;") in
  s.

(** [sep.join(items)] on a list of strings. *)
Fixpoint str_join (sep : str) (items : list str) : str :=
  match items with
  | [] => []
  | [x] => x
  | x :: rest => x ++ sep ++ str_join sep rest
  end.

(** ** Insertion-ordered dictionaries

    A Python [dict] keeps its keys in insertion order; assigning to a key that
    is present keeps the key's position. *)
Section Dict.
Variable V : Type.

Definition dict := list (str * V).

Fixpoint dict_get (d : dict) (k : str) : option V :=
  match d with
  | [] => None
  | (k', v) :: d' => if str_eqb k' k then Some v else dict_get d' k
  end.

Definition dict_contains (d : dict) (k : str) : bool :=
  match dict_get d k with
  | Some _ => true
  | None => false
  end.

(** [d[k] = v] *)
Fixpoint dict_set (d : dict) (k : str) (v : V) : dict :=
  match d with
  | [] => [(k, v)]
  | (k', v') :: d' =>
      if str_eqb k' k then (k', v) :: d' else (k', v') :: dict_set d' k v
  end.

Definition dict_keys (d : dict) : list str := map fst d.
End Dict.

(** ** Mail *)

Record Mail : Type := {
  Mail_subject : str;
  Mail_author : str;
  Mail_url : str
}.

Definition sanitize_subject (subject : str) : str :=
  try_except
    (i <- str_index subject rbracket ;; Ok (slice_from subject (i + 2)))
    subject.

Definition Mail_init (subject author url : str) : Mail :=
  {| Mail_subject := sanitize_subject subject;
     Mail_author := author;
     Mail_url := url |}.

(** [Mail.__eq__] *)
Definition Mail_eq (self other : Mail) : bool :=
  str_eqb (Mail_url self) (Mail_url other).

(** [email in emails] on a list of mails. *)
Definition list_contains (emails : list Mail) (email : Mail) : bool :=
  existsb (fun el => Mail_eq el email) emails.

(** [Mail.__repr__] *)
Definition Mail_repr (self : Mail) : str :=
  lit "Mail" ++ lit "(" ++
  str_join (lit ", ") [Mail_subject self; Mail_author self; Mail_url self] ++
  lit ")".

(** [Mail.__str__]; the line continuation keeps the indentation of the
    continued line inside the literal. *)
Definition Mail_str (self : Mail) : str :=
  lit "Subject: " ++ Mail_subject self ++ nl ++ tab ++
  lit "Author: " ++ Mail_author self ++ nl ++ tab ++
  lit "URL: " ++ lit "        " ++ Mail_url self.

(** ** Threads *)

Definition Threads := dict (list Mail).

Definition Threads_init : Threads := [].

(** [Threads.append]: the list found under the subject is the one the
    dictionary holds, so appending to it updates the dictionary's entry. *)
Definition Threads_append (self : Threads) (email : Mail) : Threads * bool :=
  match dict_get self (Mail_subject email) with
  | Some emails =>
      if list_contains emails email then (self, false)
      else (dict_set self (Mail_subject email) (emails ++ [email]), true)
  | None =>
      (dict_set self (Mail_subject email) ([] ++ [email]), true)
  end.

Definition count_threads (self : Threads) : nat := length self.

Definition count_mails (self : Threads) : nat :=
  fold_left (fun total kv => total + length (snd kv)) self 0.

(** [Threads.__str__] *)
Definition Threads_str (self : Threads) : str :=
  fold_left
    (fun s kv =>
       let s := s ++ (fst kv ++ lit ":" ++ nl) in
       let s :=
         fold_left
           (fun s el =>
              s ++ (tab ++ Mail_author el ++ lit " - <" ++ Mail_url el
                      ++ lit ">" ++ nl))
           (rev (snd kv)) s in
       s ++ nl)
    (rev self) [].

(** Appending a sequence of mails, one call of [append] each. *)
Definition Threads_appends (self : Threads) (emails : list Mail) : Threads :=
  fold_left (fun t m => fst (Threads_append t m)) emails self.

(** ** Post *)

Record Post : Type := {
  Post__title : str;
  Post__url : str;
  Post__self : bool;
  Post__comments : option str
}.

(** [Post.__init__]; [comments] is the optional fourth argument. *)
Definition Post_init (title url : str) (is_self : bool)
    (comments : option str) : Post :=
  {| Post__title := title;
     Post__url := url;
     Post__self := is_self;
     Post__comments := if is_self then None else Some url |}.

Definition Post_title (self : Post) : str := Post__title self.
Definition Post_url (self : Post) : str := Post__url self.

(** The [comments] property: [self.__comments or None]. *)
Definition Post_comments (self : Post) : option str :=
  match Post__comments self with
  | Some (c :: cs) => Some (c :: cs)
  | _ => None
  end.

(** [Post.html] *)
Definition Post_html (self : Post) : str :=
  let s := lit "<a href=" ++ quot ++ Post_url self ++ quot ++ lit ">"
           ++ html_escape (Post_title self) ++ lit "</a>" in
  match Post_comments self with
  | Some (c :: cs) =>
      s ++ (lit " (<a href=" ++ quot ++ (c :: cs) ++ quot
              ++ lit ">comments</a>)")
  | _ => s
  end.

(** ** Values handed to [str.join]

    [str.join] raises [TypeError] on the first item that is not a string. *)
Inductive value (obj : Type) : Type :=
| VStr (s : str)
| VNone
| VObj (o : obj).
Arguments VStr {obj} s.
Arguments VNone {obj}.
Arguments VObj {obj} o.

Definition value_of_option {obj} (o : option str) : value obj :=
  match o with
  | Some s => VStr s
  | None => VNone
  end.

Fixpoint expect_strs {obj} (items : list (value obj)) : result (list str) :=
  match items with
  | [] => Ok []
  | VStr s :: rest => strs <- expect_strs rest ;; Ok (s :: strs)
  | _ :: _ => Raise TypeError
  end.

Definition join_values {obj} (sep : str) (items : list (value obj))
    : result str :=
  strs <- expect_strs items ;; Ok (str_join sep strs).

(** [Post.__repr__] *)
Definition Post_repr (self : Post) : result str :=
  args <- join_values (obj := Empty_set) (lit ", ")
            [VStr (Post_title self); VStr (Post_url self);
             value_of_option (Post_comments self)] ;;
  Ok (lit "Post" ++ lit "(" ++ args ++ lit ")").

(** [Post.__str__]; an absent comments link is formatted as [None]. *)
Definition Post_str (self : Post) : str :=
  lit "Title: " ++ Post_title self ++ nl ++ tab ++
  lit "URL: " ++ Post_url self ++ nl ++ tab ++
  lit "Comments: " ++ lit "        " ++
  match Post_comments self with
  | Some c => c
  | None => lit "None"
  end.

(** ** Subreddit *)

Record Subreddit : Type := {
  Subreddit__name : str;
  subreddit : list Post
}.

Definition Subreddit_init (name : str) : Subreddit :=
  {| Subreddit__name := name; subreddit := [] |}.

Definition Subreddit_append (self : Subreddit) (post : Post) : Subreddit :=
  {| Subreddit__name := Subreddit__name self;
     subreddit := subreddit self ++ [post] |}.

(** [Subreddit.__str__]: the items joined are the posts themselves. *)
Definition Subreddit_str (self : Subreddit) : result str :=
  join_values nl (map (fun i => VObj i) (subreddit self)).

(** ** Article *)

Record struct_time : Type := {
  tm_year : Z; tm_mon : Z; tm_mday : Z;
  tm_hour : Z; tm_min : Z; tm_sec : Z;
  tm_wday : Z; tm_yday : Z; tm_isdst : Z
}.

Record Article : Type := {
  Article__title : str;
  Article__description : str;
  Article__url : str;
  Article__date : struct_time
}.

Definition Article_init (title description url : str) (date : struct_time)
    : Article :=
  {| Article__title := title;
     Article__description := description;
     Article__url := url;
     Article__date := date |}.

Definition Article_title (self : Article) : str := Article__title self.
Definition Article_description (self : Article) : str :=
  Article__description self.
Definition Article_url (self : Article) : str := Article__url self.
Definition Article_date (self : Article) : struct_time := Article__date self.

(** ** Feed *)

Record Feed : Type := {
  Feed__title : str;
  feed : list Article
}.

Definition Feed_init (title : str) : Feed :=
  {| Feed__title := title; feed := [] |}.

Definition Feed_append (self : Feed) (article : Article) : Feed :=
  {| Feed__title := Feed__title self; feed := feed self ++ [article] |}.

(** [Feed.__str__]: the items joined are the articles themselves. *)
Definition Feed_str (self : Feed) : result str :=
  join_values nl (map (fun i => VObj i) (feed self)).

(** ** HTML renderings

    What the renderings take from outside [model.py]:
    [capitalize] is [vargram_bot.util.capitalize_no_sym];
    [emoji] is [emojize(_, use_aliases=True)] of the [emoji] package when the
    package can be imported, and [None] when the import fails;
    [strftime] is [time.strftime] of the Python library. *)
Section Rendering.
Variable capitalize : str -> str.
Variable emoji : option (str -> str).
Variable strftime : str -> struct_time -> str.

(** The [try: from emoji import emojize ... except ImportError] block that
    opens each [html] method of a collection. *)
Definition resolve_dash : str :=
  match emoji with
  | Some emojize => emojize (lit ":point_right:")
  | None => lit "-"
  end.

(** [Threads.html] *)
Definition Threads_html (self : Threads) : str :=
  let dash := resolve_dash in
  fold_left
    (fun s kv =>
       let s := s ++ (dash ++ lit " <b>" ++ capitalize (fst kv)
                        ++ lit "</b>" ++ nl) in
       fold_left
         (fun s el =>
            s ++ (lit "    <a href=" ++ quot ++ Mail_url el ++ quot
                    ++ lit ">" ++ html_escape (Mail_author el)
                    ++ lit "</a>" ++ nl))
         (rev (snd kv)) s)
    (rev self) [].

(** [Subreddit.html] *)
Definition Subreddit_html (self : Subreddit) : str :=
  let dash := resolve_dash in
  str_join nl
    (map (fun el => dash ++ lit " " ++ Post_html el) (subreddit self)).

(** [Article.__repr__] *)
Definition Article_repr (self : Article) : str :=
  lit "Article" ++ lit "(" ++
  str_join (lit ", ")
    [Article_title self; Article_description self; Article_url self;
     strftime (lit "%d/%m/%y %H:%M:%S") (Article_date self)] ++
  lit ")".

(** [Article.__str__]; the arguments are in the order the source gives. *)
Definition Article_str (self : Article) : str :=
  lit "Title: " ++ Article_url self ++ nl ++ tab ++
  lit "Description: " ++ Article_title self ++ nl ++ tab ++
  lit "URL: " ++ Article_description self ++ nl ++ tab ++
  lit "Date: " ++ strftime (lit "%d/%m/%y %H:%M:%S") (Article_date self).

(** [Article.html] *)
Definition Article_html (self : Article) : str :=
  lit "<a href=" ++ quot ++ Article_url self ++ quot ++ lit ">"
  ++ Article_title self ++ lit "</a>" ++ nl ++ lit "    " ++ watch
  ++ lit " " ++ strftime (lit "%d/%m/%y %H:%M") (Article_date self).

(** [Feed.html] *)
Definition Feed_html (self : Feed) : str :=
  let dash := resolve_dash in
  str_join nl
    (map (fun el => dash ++ lit " " ++ Article_html el) (feed self)).
End Rendering.

(** ** [repr] of the collections

    [repr] of a list is the [repr] of each element in turn, joined by a
    comma and a space between square brackets; an element whose [repr]
    raises makes the whole conversion raise. *)
Fixpoint map_result {A B} (f : A -> result B) (l : list A)
    : result (list B) :=
  match l with
  | [] => Ok []
  | x :: l' => y <- f x ;; ys <- map_result f l' ;; Ok (y :: ys)
  end.

Definition list_repr (reprs : list str) : str :=
  lit "[" ++ str_join (lit ", ") reprs ++ lit "]".

(** [Subreddit.__repr__] *)
Definition Subreddit_repr (self : Subreddit) : result str :=
  reprs <- map_result Post_repr (subreddit self) ;; Ok (list_repr reprs).

(** [Feed.__repr__] *)
Definition Feed_repr (strftime : str -> struct_time -> str) (self : Feed)
    : str :=
  list_repr (map (Article_repr strftime) (feed self)).

(** ** Notions the properties are stated with *)

Definition str_eq_dec (a b : str) : {a = b} + {a <> b} :=
  list_eq_dec N.eq_dec a b.

(** The mails of a sequence that fall under subject [k]. *)
Definition subject_is (k : str) (m : Mail) : bool :=
  str_eqb (Mail_subject m) k.

(** The number of distinct urls among a sequence of mails. *)
Definition distinct_urls (ms : list Mail) : nat :=
  length (nodup str_eq_dec (map Mail_url ms)).

(** [m] has the subject and the url of [m']. *)
Definition same_subject_url (m m' : Mail) : bool :=
  str_eqb (Mail_subject m') (Mail_subject m)
  && str_eqb (Mail_url m') (Mail_url m).

(** The line of one mail and the block of one subject in the text digest. *)
Definition mail_line (el : Mail) : str :=
  tab ++ Mail_author el ++ lit " - <" ++ Mail_url el ++ lit ">" ++ nl.

Definition thread_block (kv : str * list Mail) : str :=
  fst kv ++ lit ":" ++ nl ++ concat (map mail_line (rev (snd kv))) ++ nl.

(** The line of one mail in the HTML digest. *)
Definition mail_html_line (el : Mail) : str :=
  lit "    <a href=" ++ quot ++ Mail_url el ++ quot ++ lit ">"
  ++ html_escape (Mail_author el) ++ lit "</a>" ++ nl.

(** The block of one subject in the HTML digest, for a given marker. *)
Definition thread_html_block (capitalize : str -> str) (dash : str)
    (kv : str * list Mail) : str :=
  dash ++ lit " <b>" ++ capitalize (fst kv) ++ lit "</b>" ++ nl
  ++ concat (map mail_html_line (rev (snd kv))).

(** What [html.escape] makes of one character. *)
Definition escape_char (c : char) : str :=
  if N.eqb c amp then lit "&amp;"
  else if N.eqb c lt then lit "&lt;"
  else if N.eqb c gt then lit "&gt;"
  else if N.eqb c dquote then lit "&quot;"
  else if N.eqb c squote then lit "&#x27;"
  else [c].

Definition Subreddit_appends (self : Subreddit) (posts : list Post)
    : Subreddit :=
  fold_left Subreddit_append posts self.

Definition Feed_appends (self : Feed) (articles : list Article) : Feed :=
  fold_left Feed_append articles self.

(** The scenario of the specification: two mails of one discussion, then a
    third mail that repeats the subject and the url of the first under
    another author.  The result is the collection after the three appends
    and what the third append returned. *)
Definition build_broke_scenario (author3 : str) : Threads * bool :=
  let url1 := lit "http://list/msg/1" in
  let url2 := lit "http://list/msg/2" in
  let t0 := Threads_init in
  let (t1, _) :=
    Threads_append t0 (Mail_init (lit "[Dev] Build broke") (lit "alice") url1)
  in
  let (t2, _) :=
    Threads_append t1 (Mail_init (lit "Re: Build broke") (lit "bob") url2) in
  Threads_append t2 (Mail_init (lit "[Dev] Build broke") author3 url1).

(** The three ways through [append]. *)
Inductive append_case (self : Threads) (email : Mail)
  : Threads * bool -> Prop :=
| append_duplicate emails :
    dict_get self (Mail_subject email) = Some emails ->
    In (Mail_url email) (map Mail_url emails) ->
    append_case self email (self, false)
| append_existing emails :
    dict_get self (Mail_subject email) = Some emails ->
    ~ In (Mail_url email) (map Mail_url emails) ->
    append_case self email
      (dict_set self (Mail_subject email) (emails ++ [email]), true)
| append_created :
    dict_get self (Mail_subject email) = None ->
    append_case self email (self ++ [(Mail_subject email, [email])], true).

(** What holds of a collection [t] built from the mails [ms]. *)
Record threads_inv (ms : list Mail) (t : Threads) : Prop := {
  inv_keys_nodup : NoDup (dict_keys t);
  inv_keys : forall k, In k (dict_keys t) <-> In k (map Mail_subject ms);
  inv_group_nodup :
    forall k v, dict_get t k = Some v -> NoDup (map Mail_url v);
  inv_group_urls :
    forall k v u, dict_get t k = Some v ->
      (In u (map Mail_url v) <->
       In u (map Mail_url (filter (subject_is k) ms)))
}.

(** The first occurrences, by url, of a sequence of mails: the head is
    kept, and of the rest what does not have the url of the head. *)
Definition other_url (m x : Mail) : bool :=
  negb (str_eqb (Mail_url x) (Mail_url m)).

Fixpoint keep_first (l : list Mail) : list Mail :=
  match l with
  | [] => []
  | m :: l' => m :: filter (other_url m) (keep_first l')
  end.

Definition group_of (l : list Mail) : option (list Mail) :=
  match l with
  | [] => None
  | _ :: _ => Some (keep_first l)
  end.

(** The characters [html.escape] rewrites. *)
Definition html_special (c : char) : bool :=
  N.eqb c amp || N.eqb c lt || N.eqb c gt || N.eqb c dquote || N.eqb c squote.

(** A collection whose keys are distinct and whose groups are not empty and
    hold no url twice. *)
Record threads_wf (t : Threads) : Prop := {
  wf_keys : NoDup (dict_keys t);
  wf_nonempty : Forall (fun kv => snd kv <> []) t;
  wf_urls : Forall (fun kv => NoDup (map Mail_url (snd kv))) t
}.

(** * Properties *)

(** ** Strings *)

Lemma str_eqb_eq (a b : str) : str_eqb a b = true <-> a = b.
Proof.
  revert b; induction a as [|x a IH]; intros [|y b]; simpl;
    try (split; [discriminate | discriminate]); try tauto.
  rewrite andb_true_iff, N.eqb_eq, IH.
  split; [intros [-> ->]; reflexivity | intros H; inversion H; auto].
Qed.

Lemma str_eqb_refl (a : str) : str_eqb a a = true.
Proof. apply str_eqb_eq; reflexivity. Qed.

Lemma str_eqb_neq (a b : str) : str_eqb a b = false <-> a <> b.
Proof.
  rewrite <- str_eqb_eq. destruct (str_eqb a b); split; congruence.
Qed.

Lemma str_eqb_sym (a b : str) : str_eqb a b = str_eqb b a.
Proof.
  destruct (str_eqb b a) eqn:E.
  - apply str_eqb_eq in E; subst; apply str_eqb_refl.
  - apply str_eqb_neq; apply str_eqb_neq in E; congruence.
Qed.

Lemma str_index_first (c : char) (pre post : str) :
  ~ In c pre -> str_index (pre ++ c :: post) c = Ok (length pre).
Proof.
  induction pre as [|x pre IH]; simpl; intros H.
  - rewrite N.eqb_refl; reflexivity.
  - destruct (N.eqb x c) eqn:E.
    + apply N.eqb_eq in E; tauto.
    + rewrite IH by tauto; reflexivity.
Qed.

Lemma str_index_absent (c : char) (s : str) :
  ~ In c s -> str_index s c = Raise ValueError.
Proof.
  induction s as [|x s IH]; simpl; intros H; [reflexivity|].
  destruct (N.eqb x c) eqn:E.
  - apply N.eqb_eq in E; tauto.
  - rewrite IH by tauto; reflexivity.
Qed.

(** A string that contains [c] splits at the first [c]. *)
Lemma first_occurrence (c : char) (s : str) :
  In c s -> exists pre post, s = pre ++ c :: post /\ ~ In c pre.
Proof.
  induction s as [|x s IH]; simpl; [tauto|]; intros H.
  destruct (N.eq_dec x c) as [->|Hne].
  - exists [], s; simpl; tauto.
  - destruct IH as (pre & post & -> & Hpre); [tauto|].
    exists (x :: pre), post; simpl; split; [reflexivity | tauto].
Qed.

(** ** The sanitizer *)

Lemma sanitize_subject_tagged (pre post : str) :
  ~ In rbracket pre ->
  sanitize_subject (pre ++ rbracket :: post) = tl post.
Proof.
  intros H; unfold sanitize_subject, slice_from.
  rewrite str_index_first by assumption; simpl.
  rewrite skipn_app, skipn_all2 by lia.
  replace (length pre + 2 - length pre) with 2 by lia.
  destruct post; reflexivity.
Qed.

Lemma sanitize_subject_untagged (s : str) :
  ~ In rbracket s -> sanitize_subject s = s.
Proof.
  intros H; unfold sanitize_subject.
  rewrite str_index_absent by assumption; reflexivity.
Qed.

(** ** Dictionaries *)

Section DictFacts.
Variable V : Type.
Implicit Types (d : dict V) (k : str) (v : V).

Lemma dict_get_set d k v k' :
  dict_get (dict_set d k v) k' =
  if str_eqb k k' then Some v else dict_get d k'.
Proof.
  induction d as [|[k0 v0] d IH]; simpl.
  - reflexivity.
  - destruct (str_eqb k0 k) eqn:E0; simpl.
    + apply str_eqb_eq in E0; subst k0.
      destruct (str_eqb k k'); reflexivity.
    + rewrite IH. destruct (str_eqb k0 k') eqn:E1; [|reflexivity].
      apply str_eqb_eq in E1; subst k0. rewrite str_eqb_sym, E0.
      reflexivity.
Qed.

Lemma dict_get_None d k : dict_get d k = None <-> ~ In k (dict_keys d).
Proof.
  induction d as [|[k0 v0] d IH]; simpl; [tauto|].
  destruct (str_eqb k0 k) eqn:E.
  - apply str_eqb_eq in E; subst. split; [discriminate | tauto].
  - apply str_eqb_neq in E. rewrite IH. tauto.
Qed.

Lemma dict_get_In d k v : dict_get d k = Some v -> In (k, v) d.
Proof.
  induction d as [|[k0 v0] d IH]; simpl; [discriminate|].
  destruct (str_eqb k0 k) eqn:E.
  - apply str_eqb_eq in E; subst. intros [= ->]; auto.
  - auto.
Qed.

Lemma In_dict_get d k v :
  NoDup (dict_keys d) -> In (k, v) d -> dict_get d k = Some v.
Proof.
  induction d as [|[k0 v0] d IH]; simpl; [tauto|].
  intros Hnd [H|H]; inversion Hnd as [|? ? Hk0 Hd]; subst.
  - inversion H; subst. rewrite str_eqb_refl; reflexivity.
  - destruct (str_eqb k0 k) eqn:E.
    + apply str_eqb_eq in E; subst. exfalso; apply Hk0.
      change k with (fst (k, v)). apply in_map; assumption.
    + auto.
Qed.

(** Assigning to a key that is absent adds it after the keys present. *)
Lemma dict_set_absent d k v :
  dict_get d k = None -> dict_set d k v = d ++ [(k, v)].
Proof.
  induction d as [|[k0 v0] d IH]; simpl; [reflexivity|].
  destruct (str_eqb k0 k); [discriminate|].
  intros H; rewrite IH by assumption; reflexivity.
Qed.

(** Assigning to a key that is present keeps the keys and their order. *)
Lemma dict_set_present_keys d k v v0 :
  dict_get d k = Some v0 -> dict_keys (dict_set d k v) = dict_keys d.
Proof.
  induction d as [|[k1 v1] d IH]; simpl; [discriminate|].
  destruct (str_eqb k1 k); simpl; [reflexivity|].
  intros H; f_equal; apply IH; assumption.
Qed.

(** A key that is present splits the dictionary at its entry. *)
Lemma dict_get_split d k v :
  dict_get d k = Some v ->
  exists d1 d2, d = d1 ++ (k, v) :: d2 /\ dict_get d1 k = None /\
                forall v', dict_set d k v' = d1 ++ (k, v') :: d2.
Proof.
  induction d as [|[k1 v1] d IH]; simpl; [discriminate|].
  destruct (str_eqb k1 k) eqn:E.
  - apply str_eqb_eq in E; subst. intros [= ->].
    exists [], d; simpl; auto.
  - intros H; destruct (IH H) as (d1 & d2 & -> & Hd1 & Hset).
    exists ((k1, v1) :: d1), d2; simpl; rewrite E.
    repeat split; auto. intros v'; rewrite Hset; reflexivity.
Qed.
End DictFacts.

(** ** Threads: what [append] does *)

Lemma list_contains_url (emails : list Mail) (email : Mail) :
  list_contains emails email = true <->
  In (Mail_url email) (map Mail_url emails).
Proof.
  unfold list_contains, Mail_eq. rewrite existsb_exists, in_map_iff.
  split; intros (el & H1 & H2).
  - apply str_eqb_eq in H2. exists el; auto.
  - exists el; split; [assumption | apply str_eqb_eq; assumption].
Qed.

Lemma list_contains_false (emails : list Mail) (email : Mail) :
  list_contains emails email = false <->
  ~ In (Mail_url email) (map Mail_url emails).
Proof.
  rewrite <- list_contains_url.
  destruct (list_contains emails email); split; congruence.
Qed.

Lemma Threads_append_cases (self : Threads) (email : Mail) :
  append_case self email (Threads_append self email).
Proof.
  unfold Threads_append.
  destruct (dict_get self (Mail_subject email)) as [emails|] eqn:G.
  - destruct (list_contains emails email) eqn:C.
    + apply append_duplicate with emails; [assumption|].
      apply list_contains_url; assumption.
    + apply append_existing; [assumption|].
      apply list_contains_false; assumption.
  - rewrite dict_set_absent by assumption. apply append_created; assumption.
Qed.

Lemma Threads_appends_snoc (self : Threads) (ms : list Mail) (m : Mail) :
  Threads_appends self (ms ++ [m]) =
  fst (Threads_append (Threads_appends self ms) m).
Proof. unfold Threads_appends; rewrite fold_left_app; reflexivity. Qed.

(** ** Threads: counting *)

Lemma count_mails_from (self : Threads) (n : nat) :
  fold_left (fun total kv => total + length (snd kv)) self n =
  n + list_sum (map (fun kv => length (snd kv)) self).
Proof.
  revert n; induction self as [|kv self IH]; intros n; simpl.
  - lia.
  - rewrite IH; lia.
Qed.

Lemma count_mails_sum (self : Threads) :
  count_mails self = list_sum (map (fun kv => length (snd kv)) self).
Proof. unfold count_mails; rewrite count_mails_from; reflexivity. Qed.

Lemma filter_snoc {A} (f : A -> bool) (l : list A) (x : A) :
  filter f (l ++ [x]) = filter f l ++ (if f x then [x] else []).
Proof. rewrite filter_app; simpl; destruct (f x); reflexivity. Qed.

Lemma in_urls_snoc (k u : str) (ms : list Mail) (m : Mail) :
  In u (map Mail_url (filter (subject_is k) (ms ++ [m]))) <->
  In u (map Mail_url (filter (subject_is k) ms))
  \/ (Mail_subject m = k /\ Mail_url m = u).
Proof.
  rewrite filter_snoc, map_app, in_app_iff. unfold subject_is at 2.
  destruct (str_eqb (Mail_subject m) k) eqn:E; simpl.
  - apply str_eqb_eq in E. tauto.
  - apply str_eqb_neq in E. tauto.
Qed.

Lemma filter_subject_absent (k : str) (ms : list Mail) :
  ~ In k (map Mail_subject ms) -> filter (subject_is k) ms = [].
Proof.
  induction ms as [|m ms IH]; simpl; [reflexivity|]; intros H.
  unfold subject_is at 1. destruct (str_eqb (Mail_subject m) k) eqn:E.
  - apply str_eqb_eq in E; tauto.
  - apply IH; tauto.
Qed.

(** ** Threads: the invariant of a collection built by appends *)

Lemma threads_inv_init : threads_inv [] Threads_init.
Proof.
  split; simpl; try tauto; try discriminate. constructor.
Qed.

Lemma dict_get_present {V} (d : dict V) (k : str) (v : V) :
  dict_get d k = Some v -> In k (dict_keys d).
Proof.
  intros H. destruct (in_dec str_eq_dec k (dict_keys d)) as [|Hn]; auto.
  apply dict_get_None in Hn; congruence.
Qed.

Lemma threads_inv_step (ms : list Mail) (t : Threads) (m : Mail) :
  threads_inv ms t -> threads_inv (ms ++ [m]) (fst (Threads_append t m)).
Proof.
  intros [Hnd Hkeys Hgn Hgu].
  destruct (Threads_append_cases t m) as [emails G C|emails G C|G]; simpl.
  - (* a duplicate: nothing changes *)
    split; auto.
    + intros k; rewrite map_app, in_app_iff, Hkeys; simpl.
      split; [tauto|]. intros [H|[<-|[]]]; [assumption|].
      apply Hkeys; eapply dict_get_present; eassumption.
    + intros k v u Gk; rewrite in_urls_snoc, (Hgu k v u Gk).
      split; [tauto|]. intros [H|[<- <-]]; [assumption|].
      apply (Hgu _ _ _ Gk). congruence.
  - (* a new mail under a known subject *)
    split.
    + rewrite (dict_set_present_keys _ _ _ G); assumption.
    + intros k; rewrite (dict_set_present_keys _ _ _ G).
      rewrite map_app, in_app_iff, Hkeys; simpl.
      split; [tauto|]. intros [H|[<-|[]]]; [assumption|].
      apply Hkeys; eapply dict_get_present; eassumption.
    + intros k v; rewrite dict_get_set.
      destruct (str_eqb (Mail_subject m) k) eqn:E.
      * intros [= <-]. rewrite map_app; simpl.
        apply NoDup_app; [eauto | repeat constructor; simpl; tauto |].
        intros u Hu [<-|[]]; tauto.
      * eauto.
    + intros k v u; rewrite dict_get_set, in_urls_snoc.
      destruct (str_eqb (Mail_subject m) k) eqn:E.
      * apply str_eqb_eq in E; subst k. intros [= <-].
        rewrite map_app, in_app_iff, (Hgu _ _ u G); simpl.
        intuition congruence.
      * apply str_eqb_neq in E. intros Gk; rewrite (Hgu _ _ u Gk).
        tauto.
  - (* the first mail of a subject *)
    assert (Hnew : ~ In (Mail_subject m) (dict_keys t))
      by (apply dict_get_None; assumption).
    rewrite <- (dict_set_absent _ _ [m] G).
    split.
    + rewrite dict_set_absent by assumption.
      unfold dict_keys; rewrite map_app; simpl.
      apply NoDup_app; [assumption | repeat constructor; simpl; tauto |].
      intros k Hk [<-|[]]; tauto.
    + intros k; rewrite dict_set_absent by assumption.
      unfold dict_keys; rewrite !map_app, !in_app_iff; simpl.
      fold (dict_keys t); rewrite Hkeys; tauto.
    + intros k v; rewrite dict_get_set.
      destruct (str_eqb (Mail_subject m) k) eqn:E; [|eauto].
      intros [= <-]; simpl. repeat constructor; simpl; tauto.
    + intros k v u; rewrite dict_get_set, in_urls_snoc.
      destruct (str_eqb (Mail_subject m) k) eqn:E.
      * apply str_eqb_eq in E; subst k. intros [= <-].
        rewrite filter_subject_absent by (rewrite <- Hkeys; assumption).
        simpl; intuition congruence.
      * apply str_eqb_neq in E. intros Gk; rewrite (Hgu _ _ u Gk).
        tauto.
Qed.

Lemma threads_inv_appends (ms : list Mail) :
  threads_inv ms (Threads_appends Threads_init ms).
Proof.
  induction ms as [|m ms IH] using rev_ind.
  - exact threads_inv_init.
  - rewrite Threads_appends_snoc. apply threads_inv_step; assumption.
Qed.

Lemma group_size (ms : list Mail) (t : Threads) (k : str) (v : list Mail) :
  threads_inv ms t -> dict_get t k = Some v ->
  length v = distinct_urls (filter (subject_is k) ms).
Proof.
  intros Hinv G. unfold distinct_urls.
  rewrite <- (length_map Mail_url v).
  apply Nat.le_antisymm; apply NoDup_incl_length.
  - eapply inv_group_nodup; eassumption.
  - intros u Hu. apply nodup_In. apply (inv_group_urls Hinv _ u G); exact Hu.
  - apply NoDup_nodup.
  - intros u Hu. apply nodup_In in Hu.
    apply (inv_group_urls Hinv _ u G); exact Hu.
Qed.

Lemma existsb_same_subject_url (m : Mail) (ms : list Mail) :
  existsb (same_subject_url m) ms = true ->
  In (Mail_url m) (map Mail_url (filter (subject_is (Mail_subject m)) ms)).
Proof.
  rewrite existsb_exists. intros (m' & Hin & H).
  unfold same_subject_url in H. apply andb_true_iff in H as [Hs Hu].
  apply str_eqb_eq in Hu. rewrite <- Hu. apply in_map.
  apply filter_In; split; assumption.
Qed.

(** C4. Whatever mails are appended to a fresh collection, in whatever
    order: no group holds two mails with the same url; the groups are the
    distinct subjects of the mails appended; [count_mails] is the number of
    distinct urls among the mails appended under a subject, summed over the
    subjects; and appending once more a mail whose url was already appended
    under its subject leaves the collection as it is, so that [count_mails]
    does not grow. *)
Theorem Threads_dedup_invariant (ms : list Mail) :
  let t := Threads_appends Threads_init ms in
  Forall (fun kv => NoDup (map Mail_url (snd kv))) t /\
  NoDup (dict_keys t) /\
  (forall k, In k (dict_keys t) <-> In k (map Mail_subject ms)) /\
  count_mails t =
    list_sum
      (map (fun k => distinct_urls (filter (subject_is k) ms)) (dict_keys t))
  /\
  forall m, existsb (same_subject_url m) ms = true ->
    fst (Threads_append t m) = t /\
    count_mails (fst (Threads_append t m)) <= count_mails t.
Proof.
  intros t. pose proof (threads_inv_appends ms) as Hinv. fold t in Hinv.
  repeat split.
  - apply Forall_forall. intros [k v] Hin; simpl.
    apply (inv_group_nodup Hinv k).
    apply In_dict_get; [apply (inv_keys_nodup Hinv) | assumption].
  - apply (inv_keys_nodup Hinv).
  - apply (inv_keys Hinv).
  - apply (inv_keys Hinv).
  - rewrite count_mails_sum. unfold dict_keys. rewrite map_map.
    f_equal. apply map_ext_in. intros [k v] Hin; simpl.
    apply group_size with t; [assumption|].
    apply In_dict_get; [apply (inv_keys_nodup Hinv) | assumption].
  - apply existsb_same_subject_url in H.
    destruct (Threads_append_cases t m) as [emails G C|emails G C|G];
      simpl; [reflexivity | |].
    + exfalso; apply C. apply (inv_group_urls Hinv _ _ G); assumption.
    + exfalso. apply dict_get_None in G. apply G, (inv_keys Hinv).
      apply in_map_iff in H as (m' & _ & Hm').
      apply filter_In in Hm' as [Hm' Hs]. apply str_eqb_eq in Hs.
      rewrite <- Hs; apply in_map; assumption.
  - apply existsb_same_subject_url in H.
    destruct (Threads_append_cases t m) as [emails G C|emails G C|G];
      simpl; [lia | |].
    + exfalso; apply C. apply (inv_group_urls Hinv _ _ G); assumption.
    + exfalso. apply dict_get_None in G. apply G, (inv_keys Hinv).
      apply in_map_iff in H as (m' & _ & Hm').
      apply filter_In in Hm' as [Hm' Hs]. apply str_eqb_eq in Hs.
      rewrite <- Hs; apply in_map; assumption.
Qed.

(** C5. [append] returns [False] exactly when a mail with the url of the
    item is already stored under the item's subject, and then the collection
    is unchanged.  Otherwise it returns [True]; the item is then the last of
    the sequence stored under its subject, the other subjects keep their
    sequences, and the subject is added after the others when it is new. *)
Theorem Threads_append_spec (t : Threads) (m : Mail) :
  let k := Mail_subject m in
  let t' := fst (Threads_append t m) in
  let ok := snd (Threads_append t m) in
  (ok = false <->
   exists emails el,
     dict_get t k = Some emails /\ In el emails /\ Mail_url el = Mail_url m)
  /\ (ok = false -> t' = t)
  /\ (ok = true ->
      dict_get t' k =
        Some (match dict_get t k with Some emails => emails | None => [] end
              ++ [m])
      /\ (forall k', k' <> k -> dict_get t' k' = dict_get t k')
      /\ dict_keys t' =
           if dict_contains t k then dict_keys t else dict_keys t ++ [k]).
Proof.
  cbv zeta. unfold dict_contains.
  destruct (Threads_append_cases t m) as [emails G C|emails G C|G]; simpl.
  - rewrite G. split; [|split; [reflexivity | discriminate]].
    split; [intros _ | reflexivity].
    apply in_map_iff in C as (el & Hu & Hin). exists emails, el; auto.
  - rewrite G. split; [|split; [discriminate | intros _]].
    + split; [discriminate|]. intros (emails' & el & G' & Hin & Hu).
      exfalso; apply C. injection G' as <-.
      rewrite <- Hu; apply in_map; assumption.
    + rewrite dict_get_set, str_eqb_refl.
      split; [reflexivity|]. split.
      * intros k' Hk'. rewrite dict_get_set.
        destruct (str_eqb (Mail_subject m) k') eqn:E; [|reflexivity].
        apply str_eqb_eq in E; congruence.
      * eapply dict_set_present_keys; eassumption.
  - rewrite G. split; [|split; [discriminate | intros _]].
    + split; [discriminate|]. intros (emails' & el & G' & _); discriminate.
    + rewrite <- (dict_set_absent _ _ [m] G).
      rewrite dict_get_set, str_eqb_refl.
      split; [reflexivity|]. split.
      * intros k' Hk'. rewrite dict_get_set.
        destruct (str_eqb (Mail_subject m) k') eqn:E; [|reflexivity].
        apply str_eqb_eq in E; congruence.
      * rewrite dict_set_absent by assumption.
        unfold dict_keys; rewrite map_app; reflexivity.
Qed.

(** C6. The sanitizer is a total function on strings.  On a subject that
    contains a closing bracket it returns what starts two characters after
    the first one, which is empty when fewer than two characters follow; on
    a subject without a closing bracket it returns the subject. *)
Theorem sanitize_subject_spec (raw_subject : str) :
  (In rbracket raw_subject ->
   exists pre post,
     raw_subject = pre ++ rbracket :: post /\ ~ In rbracket pre /\
     sanitize_subject raw_subject = skipn (length pre + 2) raw_subject /\
     sanitize_subject raw_subject = tl post)
  /\ (~ In rbracket raw_subject -> sanitize_subject raw_subject = raw_subject)
  /\ sanitize_subject (lit "[Group] Hello") = lit "Hello"
  /\ sanitize_subject (lit "x]") = [].
Proof.
  split; [|split; [apply sanitize_subject_untagged | split; reflexivity]].
  intros H. destruct (first_occurrence _ _ H) as (pre & post & -> & Hpre).
  exists pre, post. rewrite sanitize_subject_tagged by assumption.
  repeat split; auto.
  rewrite skipn_app, skipn_all2 by lia.
  replace (length pre + 2 - length pre) with 2 by lia.
  destruct post; reflexivity.
Qed.

(** ** Renderings as concatenations *)

Lemma fold_left_append {A} (f : A -> str) (l : list A) (s : str) :
  fold_left (fun s x => s ++ f x) l s = s ++ concat (map f l).
Proof.
  revert s; induction l as [|x l IH]; intros s; simpl.
  - rewrite app_nil_r; reflexivity.
  - rewrite IH, app_assoc; reflexivity.
Qed.

Lemma fold_left_same {A B} (f g : A -> B -> A) (l : list B) (a : A) :
  (forall a x, f a x = g a x) -> fold_left f l a = fold_left g l a.
Proof.
  intros H; revert a; induction l as [|x l IH]; intros a; simpl.
  - reflexivity.
  - rewrite H; apply IH.
Qed.

Lemma Threads_str_blocks (t : Threads) :
  Threads_str t = concat (map thread_block (rev t)).
Proof.
  unfold Threads_str.
  rewrite (fold_left_same _ (fun s kv => s ++ thread_block kv)).
  - apply (fold_left_append thread_block (rev t) []).
  - intros s kv. unfold thread_block, mail_line.
    rewrite (fold_left_append
               (fun el => tab ++ Mail_author el ++ lit " - <" ++ Mail_url el
                            ++ lit ">" ++ nl)).
    rewrite <- !app_assoc; reflexivity.
Qed.

Lemma Threads_html_blocks capitalize emoji (t : Threads) :
  Threads_html capitalize emoji t =
  concat (map (thread_html_block capitalize (resolve_dash emoji)) (rev t)).
Proof.
  unfold Threads_html.
  rewrite (fold_left_same _
             (fun s kv =>
                s ++ thread_html_block capitalize (resolve_dash emoji) kv)).
  - apply (fold_left_append _ (rev t) []).
  - intros s kv. unfold thread_html_block, mail_html_line.
    rewrite (fold_left_append
               (fun el => lit "    <a href=" ++ quot ++ Mail_url el ++ quot
                            ++ lit ">" ++ html_escape (Mail_author el)
                            ++ lit "</a>" ++ nl)).
    rewrite <- !app_assoc; reflexivity.
Qed.

Lemma concat_map_split {A} (f : A -> str) (l : list A) (x : A) :
  In x l -> exists before after, concat (map f l) = before ++ f x ++ after.
Proof.
  intros H. apply in_split in H as (l1 & l2 & ->).
  exists (concat (map f l1)), (concat (map f l2)).
  rewrite map_app, concat_app; reflexivity.
Qed.

(** ** [html.escape], character by character *)

Lemma str_replace_app (a b : str) (old : char) (new : str) :
  str_replace (a ++ b) old new = str_replace a old new ++ str_replace b old new.
Proof. unfold str_replace; apply flat_map_app. Qed.

Lemma html_escape_app (a b : str) :
  html_escape (a ++ b) = html_escape a ++ html_escape b.
Proof. unfold html_escape; rewrite !str_replace_app; reflexivity. Qed.

Lemma html_escape_char (c : char) : html_escape [c] = escape_char c.
Proof.
  unfold escape_char.
  destruct (N.eqb_spec c amp) as [->|H1]; [reflexivity|].
  destruct (N.eqb_spec c lt) as [->|H2]; [reflexivity|].
  destruct (N.eqb_spec c gt) as [->|H3]; [reflexivity|].
  destruct (N.eqb_spec c dquote) as [->|H4]; [reflexivity|].
  destruct (N.eqb_spec c squote) as [->|H5]; [reflexivity|].
  apply N.eqb_neq in H1, H2, H3, H4, H5.
  unfold html_escape, str_replace; simpl.
  rewrite H1; simpl. rewrite H2; simpl. rewrite H3; simpl.
  rewrite H4; simpl. rewrite H5; reflexivity.
Qed.

Lemma html_escape_chars (s : str) : html_escape s = flat_map escape_char s.
Proof.
  induction s as [|c s IH]; [reflexivity|].
  change (c :: s) with ([c] ++ s).
  rewrite html_escape_app, html_escape_char, IH; reflexivity.
Qed.

Lemma escape_char_no_lt (c : char) : ~ In lt (escape_char c).
Proof.
  unfold escape_char.
  destruct (N.eqb_spec c amp); [vm_compute; intuition discriminate|].
  destruct (N.eqb_spec c lt) as [|Hlt]; [vm_compute; intuition discriminate|].
  destruct (N.eqb_spec c gt); [vm_compute; intuition discriminate|].
  destruct (N.eqb_spec c dquote); [vm_compute; intuition discriminate|].
  destruct (N.eqb_spec c squote); [vm_compute; intuition discriminate|].
  simpl; intuition congruence.
Qed.

Lemma html_escape_no_lt (s : str) : ~ In lt (html_escape s).
Proof.
  rewrite html_escape_chars, in_flat_map.
  intros (c & _ & H); exact (escape_char_no_lt c H).
Qed.

(** ** Threads: the order of the digests *)

Lemma thread_block_snoc (k : str) (v : list Mail) (el : Mail) :
  thread_block (k, v ++ [el]) =
  k ++ lit ":" ++ nl ++ mail_line el ++ concat (map mail_line (rev v)) ++ nl.
Proof.
  unfold thread_block; simpl. rewrite rev_app_distr; simpl.
  rewrite <- !app_assoc; reflexivity.
Qed.

Lemma Threads_str_snoc (t : Threads) (kv : str * list Mail) :
  Threads_str (t ++ [kv]) = thread_block kv ++ Threads_str t.
Proof.
  rewrite !Threads_str_blocks, rev_app_distr; reflexivity.
Qed.

Lemma Threads_str_middle (d1 d2 : Threads) (kv : str * list Mail) :
  Threads_str (d1 ++ kv :: d2) =
  Threads_str d2 ++ thread_block kv ++ Threads_str d1.
Proof.
  rewrite !Threads_str_blocks, rev_app_distr; simpl.
  rewrite !map_app, !concat_app; simpl.
  rewrite app_nil_r, <- app_assoc; reflexivity.
Qed.

Lemma Threads_append_group (k : str) (v : list Mail) (m : Mail) :
  Mail_subject m = k -> list_contains v m = false ->
  Threads_append [(k, v)] m = ([(k, v ++ [m])], true).
Proof.
  intros <- C. unfold Threads_append; simpl.
  rewrite str_eqb_refl, C; reflexivity.
Qed.

Lemma Threads_appends_one_subject (a b c : Mail) :
  Mail_subject b = Mail_subject a -> Mail_subject c = Mail_subject a ->
  Mail_url a <> Mail_url b -> Mail_url a <> Mail_url c ->
  Mail_url b <> Mail_url c ->
  Threads_appends Threads_init [a; b; c] = [(Mail_subject a, [a; b; c])].
Proof.
  intros Hb Hc Hab Hac Hbc.
  apply str_eqb_neq in Hab, Hac, Hbc.
  unfold Threads_appends; simpl.
  change (Threads_append Threads_init a)
    with ([(Mail_subject a, [a])], true); simpl.
  rewrite (Threads_append_group [a] b Hb); simpl.
  - rewrite (Threads_append_group [a; b] c Hc); simpl; [reflexivity|].
    unfold Mail_eq; rewrite Hac, Hbc; reflexivity.
  - unfold Mail_eq; rewrite Hab; reflexivity.
Qed.

(** C7. The text digest is the concatenation of the blocks of the subjects,
    the subject created last first; inside a block the mails stand in the
    reverse of the order they were appended in.  Appending a mail that
    opens a subject puts its block in front of the digest; appending a mail
    to a subject puts its line first in the block of that subject and
    changes nothing else; and three mails A, B, C appended under one subject
    are listed C, B, A. *)
Theorem Threads_str_reverse_order (t : Threads) :
  Threads_str t = concat (map thread_block (rev t))
  /\ (forall k v el,
        thread_block (k, v ++ [el]) =
        k ++ lit ":" ++ nl ++ mail_line el
          ++ concat (map mail_line (rev v)) ++ nl)
  /\ (forall m,
        dict_get t (Mail_subject m) = None ->
        Threads_str (fst (Threads_append t m)) =
        thread_block (Mail_subject m, [m]) ++ Threads_str t)
  /\ (forall m emails,
        dict_get t (Mail_subject m) = Some emails ->
        list_contains emails m = false ->
        exists older newer,
          Threads_str t =
            newer ++ thread_block (Mail_subject m, emails) ++ older /\
          Threads_str (fst (Threads_append t m)) =
            newer ++ thread_block (Mail_subject m, emails ++ [m]) ++ older)
  /\ (forall a b c,
        Mail_subject b = Mail_subject a -> Mail_subject c = Mail_subject a ->
        Mail_url a <> Mail_url b -> Mail_url a <> Mail_url c ->
        Mail_url b <> Mail_url c ->
        Threads_str (Threads_appends Threads_init [a; b; c]) =
        Mail_subject a ++ lit ":" ++ nl
          ++ mail_line c ++ mail_line b ++ mail_line a ++ nl).
Proof.
  split; [apply Threads_str_blocks|].
  split; [apply thread_block_snoc|].
  split; [|split].
  - intros m G. unfold Threads_append; rewrite G; simpl.
    rewrite dict_set_absent by assumption. apply Threads_str_snoc.
  - intros m emails G C. unfold Threads_append; rewrite G, C; simpl.
    destruct (dict_get_split _ _ G) as (d1 & d2 & -> & _ & Hset).
    exists (Threads_str d1), (Threads_str d2).
    rewrite Hset, !Threads_str_middle; split; reflexivity.
  - intros a b c Hb Hc Hab Hac Hbc.
    rewrite Threads_appends_one_subject by assumption.
    change [(Mail_subject a, [a; b; c])]
      with ([] ++ [(Mail_subject a, [a; b] ++ [c])]).
    rewrite Threads_str_snoc, thread_block_snoc.
    change (Threads_str []) with (@nil char).
    change (concat (map mail_line (rev [a; b])))
      with (mail_line b ++ mail_line a ++ []).
    rewrite !app_nil_r, <- !app_assoc; reflexivity.
Qed.

(** C8. A mail stored in a collection has a line in the HTML digest whose
    link text is the author passed through [html.escape], and a line in the
    text digest that carries the author as it is.  The escaped author holds
    no less-than sign; each less-than sign of the author has become [&lt;]
    and each ampersand [&amp;]. *)
Theorem Threads_author_escaping (capitalize : str -> str)
    (emoji : option (str -> str)) (t : Threads) (k : str) (v : list Mail)
    (el : Mail) :
  In (k, v) t -> In el v ->
  (exists before after,
     Threads_html capitalize emoji t =
     before ++ (lit "    <a href=" ++ quot ++ Mail_url el ++ quot ++ lit ">"
                  ++ html_escape (Mail_author el) ++ lit "</a>" ++ nl)
            ++ after)
  /\ (exists before after,
        Threads_str t =
        before ++ (tab ++ Mail_author el ++ lit " - <" ++ Mail_url el
                     ++ lit ">" ++ nl) ++ after)
  /\ ~ In lt (html_escape (Mail_author el))
  /\ (forall a b, Mail_author el = a ++ lt :: b ->
        html_escape (Mail_author el) =
        html_escape a ++ lit "&lt;" ++ html_escape b)
  /\ (forall a b, Mail_author el = a ++ amp :: b ->
        html_escape (Mail_author el) =
        html_escape a ++ lit "&amp;" ++ html_escape b).
Proof.
  intros Hkv Hel. apply in_rev in Hkv, Hel.
  split; [|split; [|split; [apply html_escape_no_lt | split]]].
  - change (exists before after,
              Threads_html capitalize emoji t =
              before ++ mail_html_line el ++ after).
    rewrite Threads_html_blocks.
    destruct (concat_map_split
                (thread_html_block capitalize (resolve_dash emoji)) _ _ Hkv)
      as (b1 & a1 & ->).
    destruct (concat_map_split mail_html_line _ _ Hel) as (b2 & a2 & E).
    unfold thread_html_block at 1; cbn [fst snd]; rewrite E.
    exists (b1 ++ resolve_dash emoji ++ lit " <b>" ++ capitalize k
              ++ lit "</b>" ++ nl ++ b2), (a2 ++ a1).
    rewrite <- !app_assoc; reflexivity.
  - change (exists before after,
              Threads_str t = before ++ mail_line el ++ after).
    rewrite Threads_str_blocks.
    destruct (concat_map_split thread_block _ _ Hkv) as (b1 & a1 & ->).
    destruct (concat_map_split mail_line _ _ Hel) as (b2 & a2 & E).
    unfold thread_block at 1; cbn [fst snd]; rewrite E.
    exists (b1 ++ k ++ lit ":" ++ nl ++ b2), (a2 ++ nl ++ a1).
    rewrite <- !app_assoc; reflexivity.
  - intros a b ->.
    change (lt :: b) with ([lt] ++ b). rewrite !html_escape_app; reflexivity.
  - intros a b ->.
    change (amp :: b) with ([amp] ++ b). rewrite !html_escape_app; reflexivity.
Qed.

(** ** Subreddit and Feed: the order of the digests *)

Lemma str_join_snoc (sep : str) (l : list str) (x : str) :
  str_join sep (l ++ [x]) =
  match l with
  | [] => x
  | _ :: _ => str_join sep l ++ sep ++ x
  end.
Proof.
  induction l as [|y l IH]; [reflexivity|].
  destruct l as [|z l]; [reflexivity|].
  change (str_join sep ((y :: z :: l) ++ [x]))
    with (y ++ sep ++ str_join sep ((z :: l) ++ [x])).
  rewrite IH.
  change (str_join sep (y :: z :: l)) with (y ++ sep ++ str_join sep (z :: l)).
  rewrite <- !app_assoc; reflexivity.
Qed.

Lemma str_join_cons (sep : str) (x : str) (l : list str) :
  exists rest, str_join sep (x :: l) = x ++ rest.
Proof.
  destruct l as [|y l].
  - exists []; simpl; rewrite app_nil_r; reflexivity.
  - exists (sep ++ str_join sep (y :: l)); reflexivity.
Qed.

Lemma str_join_split (sep : str) (l : list str) (x : str) :
  In x l -> exists before after, str_join sep l = before ++ x ++ after.
Proof.
  induction l as [|y l IH]; [intros []|].
  intros [->|H].
  - destruct (str_join_cons sep x l) as (rest & ->). exists [], rest.
    reflexivity.
  - destruct l as [|z l]; [destruct H|].
    destruct (IH H) as (b & a & E).
    exists (y ++ sep ++ b), a.
    change (str_join sep (y :: z :: l)) with (y ++ sep ++ str_join sep (z :: l)).
    rewrite E, <- !app_assoc; reflexivity.
Qed.

Lemma Subreddit_appends_posts (s : Subreddit) (posts : list Post) :
  subreddit (Subreddit_appends s posts) = subreddit s ++ posts.
Proof.
  revert s; induction posts as [|p posts IH]; intros s; simpl.
  - rewrite app_nil_r; reflexivity.
  - unfold Subreddit_appends in *; simpl. rewrite IH; simpl.
    rewrite <- app_assoc; reflexivity.
Qed.

Lemma Feed_appends_articles (f : Feed) (articles : list Article) :
  feed (Feed_appends f articles) = feed f ++ articles.
Proof.
  revert f; induction articles as [|a articles IH]; intros f; simpl.
  - rewrite app_nil_r; reflexivity.
  - unfold Feed_appends in *; simpl. rewrite IH; simpl.
    rewrite <- app_assoc; reflexivity.
Qed.

Lemma str_join_last (sep : str) (l : list str) (x : str) :
  exists head, str_join sep (l ++ [x]) = head ++ x.
Proof.
  rewrite str_join_snoc. destruct l as [|y l].
  - exists []; reflexivity.
  - exists (str_join sep (y :: l) ++ sep). rewrite <- app_assoc; reflexivity.
Qed.

(** C3, as the code has it. The HTML digest of a subreddit, and of a feed,
    lists the elements in the order they were appended in: it is the entries
    of the elements, in that order, joined by line feeds, so the entry of
    the element appended first comes first and the entry of the element
    appended last comes last. *)
Theorem Subreddit_Feed_html_insertion_order (emoji : option (str -> str))
    (strftime : str -> struct_time -> str) :
  let post_entry el := resolve_dash emoji ++ lit " " ++ Post_html el in
  let article_entry el :=
    resolve_dash emoji ++ lit " " ++ Article_html strftime el in
  let subreddit_html name posts :=
    Subreddit_html emoji (Subreddit_appends (Subreddit_init name) posts) in
  let feed_html title articles :=
    Feed_html emoji strftime (Feed_appends (Feed_init title) articles) in
  (forall name posts,
     subreddit_html name posts = str_join nl (map post_entry posts))
  /\ (forall title articles,
        feed_html title articles = str_join nl (map article_entry articles))
  /\ (forall name first rest,
        exists tail,
          subreddit_html name (first :: rest) = post_entry first ++ tail)
  /\ (forall name earlier last,
        exists head,
          subreddit_html name (earlier ++ [last]) = head ++ post_entry last)
  /\ (forall title first rest,
        exists tail,
          feed_html title (first :: rest) = article_entry first ++ tail)
  /\ (forall title earlier last,
        exists head,
          feed_html title (earlier ++ [last]) = head ++ article_entry last).
Proof.
  intros post_entry article_entry subreddit_html feed_html.
  assert (Hs : forall name posts,
            subreddit_html name posts = str_join nl (map post_entry posts)).
  { intros name posts. unfold subreddit_html, Subreddit_html.
    rewrite Subreddit_appends_posts; reflexivity. }
  assert (Hf : forall title articles,
            feed_html title articles
            = str_join nl (map article_entry articles)).
  { intros title articles. unfold feed_html, Feed_html.
    rewrite Feed_appends_articles; reflexivity. }
  split; [exact Hs|]. split; [exact Hf|].
  split; [|split; [|split]].
  - intros name first rest. rewrite Hs; simpl map. apply str_join_cons.
  - intros name earlier last. rewrite Hs, map_app; simpl map.
    apply str_join_last.
  - intros title first rest. rewrite Hf; simpl map. apply str_join_cons.
  - intros title earlier last. rewrite Hf, map_app; simpl map.
    apply str_join_last.
Qed.

(** C3, as the specification has it, fails: two posts, and two articles,
    are not rendered in the reverse of the order of their appends. *)
Lemma Subreddit_Feed_html_not_reversed :
  let emoji : option (str -> str) := None in
  let strftime (fmt : str) (t : struct_time) := lit "01/04/17 10:30" in
  let date := Build_struct_time 2017 4 1 10 30 0 5 91 0 in
  let p1 := Post_init (lit "first") (lit "http://r/1") true None in
  let p2 := Post_init (lit "second") (lit "http://r/2") true None in
  let a1 := Article_init (lit "first") (lit "d") (lit "http://f/1") date in
  let a2 := Article_init (lit "second") (lit "d") (lit "http://f/2") date in
  let post_entry el := resolve_dash emoji ++ lit " " ++ Post_html el in
  let article_entry el :=
    resolve_dash emoji ++ lit " " ++ Article_html strftime el in
  let s := Subreddit_appends (Subreddit_init (lit "r")) [p1; p2] in
  let f := Feed_appends (Feed_init (lit "f")) [a1; a2] in
  (Subreddit_html emoji s = post_entry p1 ++ nl ++ post_entry p2
   /\ Subreddit_html emoji s <> str_join nl (map post_entry (rev [p1; p2])))
  /\ (Feed_html emoji strftime f = article_entry a1 ++ nl ++ article_entry a2
      /\ Feed_html emoji strftime f
         <> str_join nl (map article_entry (rev [a1; a2]))).
Proof.
  repeat split; try (intros H; vm_compute in H; discriminate H).
Qed.

(** ** The scenario of the specification *)

(** C1, as the code has it. The tagged subject is cut down to
    [Build broke]; the reply keeps its [Re: ] and so opens a subject of its
    own.  After the three appends there are two subjects and two mails, and
    the third append, whatever its author, returned [False]. *)
Theorem build_broke_scenario_counts (author3 : str) :
  let t := fst (build_broke_scenario author3) in
  dict_keys t = [lit "Build broke"; lit "Re: Build broke"]
  /\ count_threads t = 2
  /\ count_mails t = 2
  /\ snd (build_broke_scenario author3) = false.
Proof. repeat split. Qed.

(** C1, as the specification has it, fails: the scenario does not end with
    one subject. *)
Lemma build_broke_scenario_not_one_thread :
  let t := fst (build_broke_scenario (lit "carol")) in
  ~ (count_threads t = 1 /\ count_mails t = 2
     /\ snd (build_broke_scenario (lit "carol")) = false).
Proof.
  intros t [H _]. vm_compute in H. discriminate H.
Qed.

(** ** Post *)

(** C2. What the code does with the comments link: for a post that is not a
    self post the [comments] property is the url of the post, whatever link
    was passed to the constructor (and nothing when the url is empty); the
    link passed is dropped.  A post built with a url and another comments
    link has the url as its comments, and its HTML points there. *)
Theorem Post_comments_argument_ignored :
  (forall title url comments,
     Post_comments (Post_init title url false comments) =
     match url with
     | [] => None
     | _ :: _ => Some url
     end)
  /\ (forall title url comments,
        Post_comments (Post_init title url true comments) = None
        /\ Post_html (Post_init title url true comments) =
           lit "<a href=" ++ quot ++ url ++ quot ++ lit ">"
           ++ html_escape title ++ lit "</a>")
  /\ (let p := Post_init (lit "t") (lit "http://u") false
                 (Some (lit "http://c")) in
      Post_comments p = Some (lit "http://u")
      /\ Post_comments p <> Some (lit "http://c")
      /\ Post_html p =
         lit "<a href=" ++ quot ++ lit "http://u" ++ quot ++ lit ">t</a>"
         ++ lit " (<a href=" ++ quot ++ lit "http://u" ++ quot
         ++ lit ">comments</a>)").
Proof.
  split; [|split].
  - intros title [|c url] comments; reflexivity.
  - intros title url comments; split; reflexivity.
  - repeat split. intros H; vm_compute in H; discriminate H.
Qed.

(** ** Conversions that raise *)

Lemma join_values_object {obj} (sep : str) (o : obj)
    (items : list (value obj)) :
  join_values sep (VObj o :: items) = Raise TypeError.
Proof. reflexivity. Qed.

(** C9. Conversions of the model that raise: [repr] of a self post joins
    its absent comments link with strings; [str] of a subreddit that holds a
    post, and of a feed that holds an article, joins the elements
    themselves.  Each raises [TypeError]. *)
Theorem repr_and_str_raise_TypeError :
  (forall title url comments,
     Post_repr (Post_init title url true comments) = Raise TypeError)
  /\ (forall s p, Subreddit_str (Subreddit_append s p) = Raise TypeError)
  /\ (forall f a, Feed_str (Feed_append f a) = Raise TypeError)
  /\ Post_repr (Post_init (lit "t") (lit "http://u") true None)
     = Raise TypeError
  /\ Subreddit_str
       (Subreddit_append (Subreddit_init (lit "r"))
          (Post_init (lit "t") (lit "http://u") false None))
     = Raise TypeError.
Proof.
  repeat split.
  - intros s p. unfold Subreddit_str; simpl.
    destruct (subreddit s); reflexivity.
  - intros f a. unfold Feed_str; simpl.
    destruct (feed f); reflexivity.
Qed.

(** ** Article *)

(** C10. The HTML of an article carries the title as it is between the
    anchor tags, and the HTML digest of a feed carries that anchor for each
    of its articles; the HTML of a post carries the title passed through
    [html.escape].  For the title [a<b&c] the anchor text of the article is
    [a<b&c], that of the post [a&lt;b&amp;c]. *)
Theorem Article_title_not_escaped (emoji : option (str -> str))
    (strftime : str -> struct_time -> str) :
  let anchor url text :=
    lit "<a href=" ++ quot ++ url ++ quot ++ lit ">" ++ text ++ lit "</a>" in
  (forall a,
     Article_html strftime a =
     anchor (Article_url a) (Article_title a) ++ nl ++ lit "    " ++ watch
       ++ lit " " ++ strftime (lit "%d/%m/%y %H:%M") (Article_date a))
  /\ (forall f a,
        In a (feed f) ->
        exists before after,
          Feed_html emoji strftime f =
          before ++ anchor (Article_url a) (Article_title a) ++ after)
  /\ (forall p,
        exists after,
          Post_html p =
          anchor (Post_url p) (html_escape (Post_title p)) ++ after)
  /\ (forall description url date,
        Article_html strftime
          (Article_init (lit "a<b&c") description url date) =
        anchor url (lit "a<b&c") ++ nl ++ lit "    " ++ watch
          ++ lit " " ++ strftime (lit "%d/%m/%y %H:%M") date)
  /\ (forall url is_self comments,
        exists after,
          Post_html (Post_init (lit "a<b&c") url is_self comments) =
          anchor url (lit "a&lt;b&amp;c") ++ after).
Proof.
  intros anchor.
  assert (Harticle : forall a,
            Article_html strftime a =
            anchor (Article_url a) (Article_title a) ++ nl ++ lit "    "
              ++ watch ++ lit " "
              ++ strftime (lit "%d/%m/%y %H:%M") (Article_date a)).
  { intros a. unfold Article_html, anchor.
    rewrite <- !app_assoc; reflexivity. }
  assert (Hpost : forall p,
            exists after,
              Post_html p =
              anchor (Post_url p) (html_escape (Post_title p)) ++ after).
  { intros p. unfold Post_html, anchor.
    destruct (Post_comments p) as [[|c cs]|].
    - exists []; rewrite app_nil_r; reflexivity.
    - eexists; reflexivity.
    - exists []; rewrite app_nil_r; reflexivity. }
  split; [exact Harticle|].
  split; [|split; [exact Hpost | split]].
  - intros f a Hin. unfold Feed_html.
    destruct (str_join_split nl
                (map (fun el =>
                        resolve_dash emoji ++ lit " "
                          ++ Article_html strftime el) (feed f))
                (resolve_dash emoji ++ lit " " ++ Article_html strftime a))
      as (b & r & ->).
    { apply (in_map (fun el => resolve_dash emoji ++ lit " "
                                 ++ Article_html strftime el)); exact Hin. }
    rewrite Harticle.
    exists (b ++ resolve_dash emoji ++ lit " ").
    eexists. rewrite <- !app_assoc. reflexivity.
  - intros description url date. apply Harticle.
  - intros url is_self comments.
    apply (Hpost (Post_init (lit "a<b&c") url is_self comments)).
Qed.

(** * The theorems at concrete inputs *)

Lemma Threads_dedup_invariant_witness :
  let m1 := Mail_init (lit "[Dev] Build broke") (lit "alice")
              (lit "http://list/msg/1") in
  let m2 := Mail_init (lit "[Dev] Build broke") (lit "bob")
              (lit "http://list/msg/2") in
  let m3 := Mail_init (lit "[Ops] Build broke") (lit "carol")
              (lit "http://list/msg/1") in
  let t := Threads_appends Threads_init [m1; m2] in
  existsb (same_subject_url m3) [m1; m2] = true
  /\ fst (Threads_append t m3) = t
  /\ count_mails (fst (Threads_append t m3)) <= count_mails t.
Proof.
  intros m1 m2 m3 t. split; [reflexivity|].
  destruct (Threads_dedup_invariant [m1; m2]) as (_ & _ & _ & _ & H).
  exact (H m3 eq_refl).
Defined.

Lemma Threads_append_spec_witness :
  let m1 := Mail_init (lit "[Dev] Build broke") (lit "alice")
              (lit "http://list/msg/1") in
  let m2 := Mail_init (lit "Build broke") (lit "bob")
              (lit "http://list/msg/2") in
  let t := [(lit "Build broke", [m1])] in
  (snd (Threads_append t m1) = false /\ fst (Threads_append t m1) = t)
  /\ (snd (Threads_append t m2) = true
      /\ dict_get (fst (Threads_append t m2)) (lit "Build broke")
         = Some ([m1] ++ [m2])).
Proof.
  intros m1 m2 t. split.
  - split; [reflexivity|].
    destruct (Threads_append_spec t m1) as (_ & H & _).
    exact (H eq_refl).
  - split; [reflexivity|].
    destruct (Threads_append_spec t m2) as (_ & _ & H).
    destruct (H eq_refl) as (Hget & _). exact Hget.
Defined.

Lemma sanitize_subject_spec_witness :
  (~ In rbracket (lit "Build broke")
   /\ sanitize_subject (lit "Build broke") = lit "Build broke")
  /\ (In rbracket (lit "[Dev] Build broke")
      /\ exists pre post,
           lit "[Dev] Build broke" = pre ++ rbracket :: post
           /\ ~ In rbracket pre
           /\ sanitize_subject (lit "[Dev] Build broke")
              = skipn (length pre + 2) (lit "[Dev] Build broke")
           /\ sanitize_subject (lit "[Dev] Build broke") = tl post).
Proof.
  assert (H1 : ~ In rbracket (lit "Build broke")).
  { vm_compute. intuition discriminate. }
  assert (H2 : In rbracket (lit "[Dev] Build broke")).
  { vm_compute. tauto. }
  split; split; try assumption.
  - destruct (sanitize_subject_spec (lit "Build broke")) as (_ & H & _).
    exact (H H1).
  - destruct (sanitize_subject_spec (lit "[Dev] Build broke")) as (H & _).
    exact (H H2).
Defined.

Lemma Threads_str_reverse_order_witness :
  let a := Mail_init (lit "[Dev] Build broke") (lit "alice")
             (lit "http://list/msg/1") in
  let b := Mail_init (lit "[Dev] Build broke") (lit "bob")
             (lit "http://list/msg/2") in
  let c := Mail_init (lit "[Ops] Build broke") (lit "carol")
             (lit "http://list/msg/3") in
  (Mail_subject b = Mail_subject a /\ Mail_subject c = Mail_subject a
   /\ Mail_url a <> Mail_url b /\ Mail_url a <> Mail_url c
   /\ Mail_url b <> Mail_url c)
  /\ Threads_str (Threads_appends Threads_init [a; b; c]) =
     Mail_subject a ++ lit ":" ++ nl
       ++ mail_line c ++ mail_line b ++ mail_line a ++ nl.
Proof.
  intros a b c.
  assert (Hb : Mail_subject b = Mail_subject a) by reflexivity.
  assert (Hc : Mail_subject c = Mail_subject a) by reflexivity.
  assert (Hab : Mail_url a <> Mail_url b)
    by (intros H; vm_compute in H; discriminate H).
  assert (Hac : Mail_url a <> Mail_url c)
    by (intros H; vm_compute in H; discriminate H).
  assert (Hbc : Mail_url b <> Mail_url c)
    by (intros H; vm_compute in H; discriminate H).
  split; [repeat split; assumption|].
  destruct (Threads_str_reverse_order Threads_init) as (_ & _ & _ & _ & H).
  exact (H a b c Hb Hc Hab Hac Hbc).
Defined.

Lemma Threads_author_escaping_witness :
  let el := Mail_init (lit "[Dev] Build broke") (lit "A & B <ab@list>")
              (lit "http://list/msg/1") in
  let t := fst (Threads_append Threads_init el) in
  (In (lit "Build broke", [el]) t /\ In el [el])
  /\ ~ In lt (html_escape (Mail_author el))
  /\ html_escape (Mail_author el)
     = html_escape (lit "A & B ") ++ lit "&lt;" ++ html_escape (lit "ab@list>").
Proof.
  intros el t.
  assert (Hkv : In (lit "Build broke", [el]) t) by (left; reflexivity).
  assert (Hel : In el [el]) by (left; reflexivity).
  split; [split; assumption|].
  destruct (Threads_author_escaping (fun s => s) None _ _ _ _ Hkv Hel)
    as (_ & _ & Hlt & Hsplit & _).
  split; [exact Hlt|].
  exact (Hsplit (lit "A & B ") (lit "ab@list>") eq_refl).
Defined.

Lemma Article_title_not_escaped_witness :
  let strftime (fmt : str) (t : struct_time) := lit "01/04/17 10:30" in
  let date := Build_struct_time 2017 4 1 10 30 0 5 91 0 in
  let a := Article_init (lit "a<b&c") (lit "d") (lit "http://f/1") date in
  let f := Feed_append (Feed_init (lit "f")) a in
  In a (feed f)
  /\ exists before after,
       Feed_html None strftime f =
       before ++ (lit "<a href=" ++ quot ++ lit "http://f/1" ++ quot
                    ++ lit ">" ++ lit "a<b&c" ++ lit "</a>") ++ after.
Proof.
  intros strftime date a f.
  assert (Hin : In a (feed f)) by (left; reflexivity).
  split; [assumption|].
  destruct (Article_title_not_escaped None strftime) as (_ & H & _).
  exact (H f a Hin).
Defined.

(** * Further properties of the model *)

(** ** The sanitizer cuts a prefix *)

(** X1. The sanitized subject is what is left of the raw subject after a
    prefix is cut; nothing is cut exactly when the raw subject has no closing
    bracket, and a subject with one gets strictly shorter. *)
Theorem sanitize_subject_suffix (raw_subject : str) :
  (exists cut, raw_subject = cut ++ sanitize_subject raw_subject)
  /\ (sanitize_subject raw_subject = raw_subject
      <-> ~ In rbracket raw_subject)
  /\ (In rbracket raw_subject ->
      length (sanitize_subject raw_subject) < length raw_subject).
Proof.
  destruct (in_dec N.eq_dec rbracket raw_subject) as [Hin|Hout].
  - destruct (first_occurrence _ _ Hin) as (pre & post & -> & Hpre).
    rewrite sanitize_subject_tagged by assumption.
    assert (Hlen : length (tl post) < length (pre ++ rbracket :: post)).
    { rewrite length_app; simpl. destruct post; simpl; lia. }
    split; [|split].
    + exists (pre ++ rbracket :: firstn 1 post).
      rewrite <- app_assoc; simpl. destruct post; reflexivity.
    + split; [|tauto]. intros E; rewrite E in Hlen; lia.
    + intros _; exact Hlen.
  - rewrite sanitize_subject_untagged by assumption.
    split; [exists []; reflexivity|]. split; tauto.
Qed.

(** ** Threads: one append *)

Lemma Threads_append_get_same (t : Threads) (m : Mail) :
  dict_get (fst (Threads_append t m)) (Mail_subject m) =
  Some match dict_get t (Mail_subject m) with
       | Some emails =>
           if list_contains emails m then emails else emails ++ [m]
       | None => [m]
       end.
Proof.
  unfold Threads_append.
  destruct (dict_get t (Mail_subject m)) as [emails|] eqn:G.
  - destruct (list_contains emails m); simpl; [assumption|].
    rewrite dict_get_set, str_eqb_refl; reflexivity.
  - simpl. rewrite dict_get_set, str_eqb_refl; reflexivity.
Qed.

Lemma Threads_append_get_other (t : Threads) (m : Mail) (k : str) :
  k <> Mail_subject m ->
  dict_get (fst (Threads_append t m)) k = dict_get t k.
Proof.
  intros Hk.
  assert (E : str_eqb (Mail_subject m) k = false)
    by (apply str_eqb_neq; congruence).
  unfold Threads_append.
  destruct (dict_get t (Mail_subject m)) as [emails|].
  - destruct (list_contains emails m); simpl; [reflexivity|].
    rewrite dict_get_set, E; reflexivity.
  - simpl. rewrite dict_get_set, E; reflexivity.
Qed.

Lemma list_contains_snoc_self (emails : list Mail) (m : Mail) :
  list_contains (emails ++ [m]) m = true.
Proof.
  apply list_contains_url. rewrite map_app, in_app_iff; simpl; tauto.
Qed.

Lemma count_mails_app (t1 t2 : Threads) :
  count_mails (t1 ++ t2) = count_mails t1 + count_mails t2.
Proof. rewrite !count_mails_sum, map_app, list_sum_app; reflexivity. Qed.

Lemma count_mails_cons (kv : str * list Mail) (t : Threads) :
  count_mails (kv :: t) = length (snd kv) + count_mails t.
Proof. rewrite !count_mails_sum; reflexivity. Qed.

Lemma count_mails_step (t : Threads) (m : Mail) :
  count_mails (fst (Threads_append t m)) =
  count_mails t + (if snd (Threads_append t m) then 1 else 0).
Proof.
  destruct (Threads_append_cases t m) as [emails G C|emails G C|G]; simpl.
  - lia.
  - destruct (dict_get_split _ _ G) as (d1 & d2 & -> & _ & Hset).
    rewrite Hset, !count_mails_app, !count_mails_cons; simpl.
    rewrite length_app; simpl; lia.
  - rewrite count_mails_app, count_mails_cons; simpl.
    change (count_mails []) with 0; lia.
Qed.

Lemma count_threads_step (t : Threads) (m : Mail) :
  count_threads (fst (Threads_append t m)) =
  count_threads t + (if dict_contains t (Mail_subject m) then 0 else 1).
Proof.
  unfold count_threads, dict_contains.
  destruct (Threads_append_cases t m) as [emails G C|emails G C|G];
    simpl; rewrite G.
  - lia.
  - rewrite <- (length_map fst (dict_set _ _ _)).
    fold (dict_keys (dict_set t (Mail_subject m) (emails ++ [m]))).
    rewrite (dict_set_present_keys _ _ _ G). unfold dict_keys.
    rewrite length_map; lia.
  - rewrite length_app; simpl; lia.
Qed.

(** X2. What one append does to the counts: [count_mails] grows by one
    when [append] returns [True] and stays when it returns [False];
    [count_threads] grows by one when the subject of the mail is new and
    stays otherwise. *)
Theorem Threads_append_counts (t : Threads) (m : Mail) :
  count_mails (fst (Threads_append t m)) =
    count_mails t + (if snd (Threads_append t m) then 1 else 0)
  /\ count_threads (fst (Threads_append t m)) =
       count_threads t
       + (if dict_contains t (Mail_subject m) then 0 else 1).
Proof. split; [apply count_mails_step | apply count_threads_step]. Qed.

(** X3. Appending a mail a second time, right after the first, is always
    refused and leaves the collection as the first append left it. *)
Theorem Threads_append_idempotent (t : Threads) (m : Mail) :
  Threads_append (fst (Threads_append t m)) m =
  (fst (Threads_append t m), false).
Proof.
  assert (H : exists emails,
             dict_get (fst (Threads_append t m)) (Mail_subject m)
             = Some emails /\ list_contains emails m = true).
  { rewrite Threads_append_get_same.
    destruct (dict_get t (Mail_subject m)) as [emails|].
    - destruct (list_contains emails m) eqn:C.
      + exists emails; auto.
      + exists (emails ++ [m]); split;
          [reflexivity | apply list_contains_snoc_self].
    - exists [m]; split; [reflexivity|].
      apply (list_contains_snoc_self [] m). }
  destruct H as (emails & G & C).
  unfold Threads_append at 1. rewrite G, C; reflexivity.
Qed.

(** ** Threads: what a sequence of appends stores *)

Lemma other_url_true (m x : Mail) :
  other_url m x = true <-> Mail_url x <> Mail_url m.
Proof. unfold other_url; rewrite negb_true_iff; apply str_eqb_neq. Qed.

Lemma keep_first_urls (l : list Mail) (u : str) :
  In u (map Mail_url (keep_first l)) <-> In u (map Mail_url l).
Proof.
  induction l as [|m l IH]; simpl; [tauto|].
  rewrite <- IH, !in_map_iff. split.
  - intros [H|(x & Hx & Hin)]; [tauto|].
    apply filter_In in Hin as [Hin _]. right; exists x; auto.
  - intros [H|(x & Hx & Hin)]; [tauto|].
    destruct (str_eq_dec (Mail_url x) (Mail_url m)) as [E|E].
    + left; congruence.
    + right; exists x; split; [assumption|].
      apply filter_In; split; [assumption | apply other_url_true; exact E].
Qed.

Lemma keep_first_NoDup (l : list Mail) : NoDup (map Mail_url (keep_first l)).
Proof.
  induction l as [|m l IH]; simpl; constructor.
  - rewrite in_map_iff. intros (x & Hx & Hin).
    apply filter_In in Hin as [_ Hin]. apply other_url_true in Hin; tauto.
  - clear -IH. induction (keep_first l) as [|x k IHk]; simpl; [constructor|].
    inversion IH; subst. destruct (other_url m x); simpl; auto.
    constructor; auto. rewrite in_map_iff in *.
    intros (y & Hy & Hin). apply filter_In in Hin as [Hin _].
    apply H1; exists y; auto.
Qed.

Lemma keep_first_first (l1 l2 : list Mail) (m : Mail) :
  ~ In (Mail_url m) (map Mail_url l1) -> In m (keep_first (l1 ++ m :: l2)).
Proof.
  induction l1 as [|x l1 IH]; simpl; intros H; [tauto|].
  right. apply filter_In; split; [apply IH; tauto|].
  apply other_url_true; intros E; apply H; left; congruence.
Qed.

Lemma filter_other_url_skip (m x : Mail) (l : list Mail) :
  filter (other_url x) (l ++ [m]) =
  if str_eqb (Mail_url m) (Mail_url x) then filter (other_url x) l
  else filter (other_url x) l ++ [m].
Proof.
  rewrite filter_snoc. unfold other_url at 2.
  destruct (str_eqb (Mail_url m) (Mail_url x)); simpl;
    [apply app_nil_r | reflexivity].
Qed.

Lemma keep_first_snoc (l : list Mail) (m : Mail) :
  keep_first (l ++ [m]) =
  if in_dec str_eq_dec (Mail_url m) (map Mail_url l) then keep_first l
  else keep_first l ++ [m].
Proof.
  induction l as [|x l IH]; simpl.
  - reflexivity.
  - rewrite IH.
    destruct (in_dec str_eq_dec (Mail_url m) (map Mail_url l)) as [Hin|Hout].
    + destruct (str_eq_dec (Mail_url x) (Mail_url m)); reflexivity.
    + rewrite filter_other_url_skip.
      destruct (str_eq_dec (Mail_url x) (Mail_url m)) as [E|E].
      * rewrite E, str_eqb_refl; reflexivity.
      * assert (E' : str_eqb (Mail_url m) (Mail_url x) = false)
          by (apply str_eqb_neq; congruence).
        rewrite E'; reflexivity.
Qed.

(** What [append] does to a group whose mails are first occurrences. *)
Lemma append_keep_first (l : list Mail) (m : Mail) :
  (if list_contains (keep_first l) m then keep_first l
   else keep_first l ++ [m]) = keep_first (l ++ [m]).
Proof.
  rewrite keep_first_snoc.
  destruct (in_dec str_eq_dec (Mail_url m) (map Mail_url l)) as [Hin|Hout].
  - apply keep_first_urls, list_contains_url in Hin.
    rewrite Hin; reflexivity.
  - assert (C : list_contains (keep_first l) m = false).
    { apply list_contains_false. rewrite keep_first_urls; exact Hout. }
    rewrite C; reflexivity.
Qed.

(** X4. After any sequence of appends to a fresh collection, the group of a
    subject holds the first occurrences, by url, of the mails appended under
    that subject, in the order of their appends: no url twice, every url of
    those mails once, and for each url the mail that came first with it.  A
    subject under which nothing was appended has no group. *)
Theorem Threads_groups_first_occurrences (ms : list Mail) (k : str) :
  dict_get (Threads_appends Threads_init ms) k =
    group_of (filter (subject_is k) ms)
  /\ (forall l,
        NoDup (map Mail_url (keep_first l))
        /\ (forall u,
              In u (map Mail_url (keep_first l)) <-> In u (map Mail_url l)))
  /\ (forall l1 m l2,
        ~ In (Mail_url m) (map Mail_url l1) ->
        In m (keep_first (l1 ++ m :: l2))).
Proof.
  split; [|split].
  - induction ms as [|m ms IH] using rev_ind; [reflexivity|].
    rewrite Threads_appends_snoc, filter_snoc. unfold subject_is at 2.
    destruct (str_eqb (Mail_subject m) k) eqn:E.
    + apply str_eqb_eq in E; subst k.
      rewrite Threads_append_get_same, IH.
      destruct (filter (subject_is (Mail_subject m)) ms) as [|x l].
      * reflexivity.
      * change (group_of (x :: l)) with (Some (keep_first (x :: l))).
        change (group_of ((x :: l) ++ [m]))
          with (Some (keep_first ((x :: l) ++ [m]))).
        cbv beta iota. rewrite append_keep_first. reflexivity.
    + apply str_eqb_neq in E.
      rewrite Threads_append_get_other by congruence.
      rewrite app_nil_r; exact IH.
  - intros l; split; [apply keep_first_NoDup | intros u; apply keep_first_urls].
  - intros l1 m l2; apply keep_first_first.
Qed.

Lemma count_mails_flat (t : Threads) :
  count_mails t = length (flat_map (fun kv => map Mail_url (snd kv)) t).
Proof.
  rewrite count_mails_sum.
  induction t as [|kv t IH]; simpl; [reflexivity|].
  rewrite length_app, length_map, IH; reflexivity.
Qed.

Lemma stored_url (ms : list Mail) (t : Threads) (m : Mail) :
  threads_inv ms t -> In m ms ->
  In (Mail_url m) (flat_map (fun kv => map Mail_url (snd kv)) t).
Proof.
  intros Hinv Hin.
  destruct (dict_get t (Mail_subject m)) as [v|] eqn:G.
  - apply in_flat_map. exists (Mail_subject m, v); split.
    + apply dict_get_In; assumption.
    + simpl. apply (inv_group_urls Hinv _ _ G).
      apply in_map, filter_In; split; [assumption | apply str_eqb_refl].
  - exfalso. apply dict_get_None in G. apply G, (inv_keys Hinv).
    apply in_map; assumption.
Qed.

Lemma count_mails_appends_le (t : Threads) (ms : list Mail) :
  count_mails (Threads_appends t ms) <= count_mails t + length ms.
Proof.
  induction ms as [|m ms IH] using rev_ind; [simpl; lia|].
  rewrite Threads_appends_snoc, count_mails_step, length_app; simpl.
  destruct (snd (Threads_append (Threads_appends t ms) m)); lia.
Qed.

(** X5. After any sequence of appends to a fresh collection [count_mails]
    is at least the number of distinct urls among the mails appended and at
    most the number of mails appended. *)
Theorem count_mails_bounds (ms : list Mail) :
  distinct_urls ms <= count_mails (Threads_appends Threads_init ms)
  /\ count_mails (Threads_appends Threads_init ms) <= length ms.
Proof.
  split.
  - rewrite count_mails_flat. unfold distinct_urls.
    apply NoDup_incl_length; [apply NoDup_nodup|].
    intros u Hu. apply nodup_In, in_map_iff in Hu as (m & <- & Hin).
    eapply stored_url; [apply threads_inv_appends | assumption].
  - apply (count_mails_appends_le Threads_init ms).
Qed.

(** X6. After any sequence of appends to a fresh collection
    [count_threads] is the number of distinct subjects among the mails
    appended. *)
Theorem count_threads_distinct_subjects (ms : list Mail) :
  count_threads (Threads_appends Threads_init ms) =
  length (nodup str_eq_dec (map Mail_subject ms)).
Proof.
  pose proof (threads_inv_appends ms) as Hinv.
  unfold count_threads.
  rewrite <- (length_map fst (Threads_appends Threads_init ms)).
  fold (dict_keys (Threads_appends Threads_init ms)).
  apply Nat.le_antisymm; apply NoDup_incl_length.
  - apply (inv_keys_nodup Hinv).
  - intros k Hk. apply nodup_In, (inv_keys Hinv); exact Hk.
  - apply NoDup_nodup.
  - intros k Hk. apply nodup_In in Hk. apply (inv_keys Hinv); exact Hk.
Qed.

(** ** Threads: appends only add *)

Lemma Threads_append_extends (t : Threads) (m : Mail) (k : str)
    (v : list Mail) :
  dict_get t k = Some v ->
  exists more, dict_get (fst (Threads_append t m)) k = Some (v ++ more).
Proof.
  intros G. destruct (str_eq_dec k (Mail_subject m)) as [->|Hk].
  - rewrite Threads_append_get_same, G.
    destruct (list_contains v m).
    + exists []; rewrite app_nil_r; reflexivity.
    + exists [m]; reflexivity.
  - rewrite Threads_append_get_other by assumption.
    exists []; rewrite app_nil_r; assumption.
Qed.

Lemma Threads_append_keys (t : Threads) (m : Mail) :
  exists more, dict_keys (fst (Threads_append t m)) = dict_keys t ++ more.
Proof.
  destruct (Threads_append_cases t m) as [emails G C|emails G C|G]; simpl.
  - exists []; rewrite app_nil_r; reflexivity.
  - exists []; rewrite app_nil_r.
    eapply dict_set_present_keys; eassumption.
  - exists [Mail_subject m]. unfold dict_keys; rewrite map_app; reflexivity.
Qed.

(** X7. Appends never remove or reorder what a collection holds: after
    any further appends the sequence stored under a subject begins with the
    sequence that was stored there, and the subjects begin with the subjects
    that were there, in their order. *)
Theorem Threads_appends_extend (t : Threads) (ms : list Mail) (k : str)
    (v : list Mail) :
  dict_get t k = Some v ->
  (exists more, dict_get (Threads_appends t ms) k = Some (v ++ more))
  /\ (exists more, dict_keys (Threads_appends t ms) = dict_keys t ++ more).
Proof.
  intros G. induction ms as [|m ms IH] using rev_ind.
  - split; exists []; rewrite app_nil_r; [assumption | reflexivity].
  - destruct IH as [(v1 & G1) (k1 & K1)]. rewrite Threads_appends_snoc.
    split.
    + destruct (Threads_append_extends _ m _ G1) as (v2 & G2).
      exists (v1 ++ v2). rewrite G2, app_assoc; reflexivity.
    + destruct (Threads_append_keys (Threads_appends t ms) m) as (k2 & K2).
      exists (k1 ++ k2). rewrite K2, K1, app_assoc; reflexivity.
Qed.

(** ** Threads: well-formed collections *)

Lemma NoDup_urls_snoc (emails : list Mail) (m : Mail) :
  NoDup (map Mail_url emails) ->
  ~ In (Mail_url m) (map Mail_url emails) ->
  NoDup (map Mail_url (emails ++ [m])).
Proof.
  intros Hnd Hout. rewrite map_app; simpl.
  apply NoDup_app; [assumption | repeat constructor; simpl; tauto |].
  intros u Hu [<-|[]]; tauto.
Qed.

Lemma threads_wf_step (t : Threads) (m : Mail) :
  threads_wf t -> threads_wf (fst (Threads_append t m)).
Proof.
  intros [Hk Hne Hu].
  destruct (Threads_append_cases t m) as [emails G C|emails G C|G]; simpl.
  - split; assumption.
  - split.
    + rewrite (dict_set_present_keys _ _ _ G); assumption.
    + destruct (dict_get_split _ _ G) as (d1 & d2 & -> & _ & Hset).
      rewrite Hset. apply Forall_app in Hne as [H1 H2].
      apply Forall_app; split; [assumption|].
      inversion H2; subst. constructor; [|assumption].
      simpl; intros E; apply app_eq_nil in E as [_ E]; discriminate.
    + destruct (dict_get_split _ _ G) as (d1 & d2 & -> & _ & Hset).
      rewrite Hset. apply Forall_app in Hu as [H1 H2].
      apply Forall_app; split; [assumption|].
      inversion H2; subst. constructor; [|assumption].
      simpl in *. apply NoDup_urls_snoc; assumption.
  - split.
    + unfold dict_keys; rewrite map_app; simpl.
      apply NoDup_app; [assumption | repeat constructor; simpl; tauto |].
      apply dict_get_None in G. intros k Hin [<-|[]]; tauto.
    + apply Forall_app; split; [assumption|].
      repeat constructor; simpl; discriminate.
    + apply Forall_app; split; [assumption|].
      repeat constructor; simpl; tauto.
Qed.

Lemma threads_wf_appends (ms : list Mail) :
  threads_wf (Threads_appends Threads_init ms).
Proof.
  induction ms as [|m ms IH] using rev_ind.
  - split; constructor.
  - rewrite Threads_appends_snoc. apply threads_wf_step; exact IH.
Qed.

(** X8. [append] keeps a collection well formed: if the subjects are
    distinct, no group is empty and no group holds a url twice, the same
    holds after the append, whatever the mail and whatever [append]
    returns. *)
Theorem Threads_append_wf (t : Threads) (m : Mail) :
  threads_wf t -> threads_wf (fst (Threads_append t m)).
Proof. apply threads_wf_step. Qed.

Lemma nonempty_groups_count (t : Threads) :
  Forall (fun kv => snd kv <> []) t -> count_threads t <= count_mails t.
Proof.
  unfold count_threads. rewrite count_mails_sum.
  induction 1 as [|[k v] t Hv _ IH]; simpl; [lia|].
  destruct v; simpl in *; [congruence | lia].
Qed.

(** X9. A collection built by appends has no empty group, so it never
    counts more subjects than mails. *)
Theorem count_threads_le_count_mails (ms : list Mail) :
  Forall (fun kv => snd kv <> []) (Threads_appends Threads_init ms)
  /\ count_threads (Threads_appends Threads_init ms)
     <= count_mails (Threads_appends Threads_init ms).
Proof.
  pose proof (wf_nonempty (threads_wf_appends ms)) as H.
  split; [exact H | apply nonempty_groups_count; exact H].
Qed.

(** ** Threads: two mails *)

(** X10. Two mails appended to a fresh collection share a thread exactly
    when their raw subjects sanitize to the same string, whatever their
    tags; the second is dropped only when it also has the url of the first.
    Two mails with one url and different sanitized subjects are both
    stored. *)
Theorem two_mails_grouping (rawA authorA urlA rawB authorB urlB : str) :
  let t :=
    Threads_appends Threads_init
      [Mail_init rawA authorA urlA; Mail_init rawB authorB urlB] in
  let same := str_eqb (sanitize_subject rawA) (sanitize_subject rawB) in
  count_threads t = (if same then 1 else 2)
  /\ count_mails t = (if same && str_eqb urlA urlB then 1 else 2).
Proof.
  cbv zeta. unfold Threads_appends; simpl.
  change (Threads_append Threads_init (Mail_init rawA authorA urlA))
    with ([(sanitize_subject rawA, [Mail_init rawA authorA urlA])], true).
  unfold Threads_append; simpl.
  destruct (str_eqb (sanitize_subject rawA) (sanitize_subject rawB)) eqn:E;
    simpl.
  - unfold Mail_eq; simpl. destruct (str_eqb urlA urlB); simpl.
    + split; reflexivity.
    + rewrite ?E; split; reflexivity.
  - rewrite ?E; split; reflexivity.
Qed.

(** ** Threads: the order of the HTML digest *)

(** X11. The HTML digest visits a collection as the text digest does: the
    block of the subject created last comes first, and inside a block the
    line of the mail appended last comes right after the header.  A block
    is the marker, the capitalized subject in bold and one line per mail;
    nothing separates two blocks. *)
Theorem Threads_html_reverse_order (capitalize : str -> str)
    (emoji : option (str -> str)) (t : Threads) :
  let block := thread_html_block capitalize (resolve_dash emoji) in
  Threads_html capitalize emoji t = concat (map block (rev t))
  /\ (forall kv,
        Threads_html capitalize emoji (t ++ [kv]) =
        block kv ++ Threads_html capitalize emoji t)
  /\ (forall k v el,
        block (k, v ++ [el]) =
        resolve_dash emoji ++ lit " <b>" ++ capitalize k ++ lit "</b>" ++ nl
          ++ mail_html_line el ++ concat (map mail_html_line (rev v))).
Proof.
  cbv zeta. split; [apply Threads_html_blocks | split].
  - intros kv. rewrite !Threads_html_blocks, rev_app_distr; reflexivity.
  - intros k v el. unfold thread_html_block; cbn [fst snd].
    rewrite rev_app_distr; reflexivity.
Qed.

(** ** Post *)

(** Brings both sides of an equation between strings to one shape. *)
Ltac flatten_app := repeat first [rewrite <- app_assoc | progress simpl].

(** X12. [repr] of a post succeeds only for a post that is not a self post
    and has a url; it then shows the url twice, as url and as comments
    link.  For a self post and for an empty url it raises [TypeError]. *)
Theorem Post_repr_spec (title url : str) (is_self : bool)
    (comments : option str) :
  Post_repr (Post_init title url is_self comments) =
  if is_self then Raise TypeError
  else match url with
       | [] => Raise TypeError
       | _ :: _ =>
           Ok (lit "Post(" ++ title ++ lit ", " ++ url ++ lit ", " ++ url
                 ++ lit ")")
       end.
Proof.
  destruct is_self; [reflexivity|].
  destruct url as [|c url]; [reflexivity|].
  unfold Post_repr, Post_init, Post_comments, Post_title, Post_url.
  flatten_app; reflexivity.
Qed.

(** X13. The HTML of a post that is not a self post and has a url is the
    title link followed by a comments link, and both point to the url of the
    post; with an empty url only the title link is rendered. *)
Theorem Post_html_links (title url : str) (comments : option str) :
  let anchor target text :=
    lit "<a href=" ++ quot ++ target ++ quot ++ lit ">" ++ text
      ++ lit "</a>" in
  Post_html (Post_init title url false comments) =
  match url with
  | [] => anchor url (html_escape title)
  | _ :: _ =>
      anchor url (html_escape title)
        ++ lit " (" ++ anchor url (lit "comments") ++ lit ")"
  end.
Proof.
  cbv zeta. destruct url as [|c url]; [reflexivity|].
  unfold Post_html, Post_init, Post_comments, Post_title, Post_url.
  flatten_app; reflexivity.
Qed.

(** ** Subreddit *)

Lemma Post_repr_raises (p : Post) :
  Post_repr p = Raise TypeError <-> Post_comments p = None.
Proof.
  unfold Post_repr. destruct (Post_comments p) as [c|]; simpl.
  - split; discriminate.
  - split; reflexivity.
Qed.

Lemma Post_repr_result (p : Post) :
  Post_repr p = Raise TypeError \/ exists r, Post_repr p = Ok r.
Proof.
  unfold Post_repr. destruct (Post_comments p) as [c|]; simpl.
  - right; eexists; reflexivity.
  - left; reflexivity.
Qed.

Lemma map_result_Post_repr (posts : list Post) :
  (map_result Post_repr posts = Raise TypeError
   /\ Exists (fun p => Post_comments p = None) posts)
  \/ (exists reprs, map_result Post_repr posts = Ok reprs
      /\ Forall (fun p => Post_comments p <> None) posts).
Proof.
  induction posts as [|p posts IH]; simpl.
  - right; exists []; split; [reflexivity | constructor].
  - destruct (Post_repr_result p) as [E|(r & E)]; rewrite E; simpl.
    + left; split; [reflexivity|].
      apply Exists_cons_hd, Post_repr_raises; assumption.
    + assert (Hp : Post_comments p <> None).
      { intros H; apply Post_repr_raises in H; congruence. }
      destruct IH as [[E' Hex]|(reprs & E' & Hall)]; rewrite E'; simpl.
      * left; split; [reflexivity | apply Exists_cons_tl; assumption].
      * right; exists (r :: reprs); split; [reflexivity|].
        constructor; assumption.
Qed.

(** X14. [repr] of a subreddit raises [TypeError] exactly when one of its
    posts has no comments link (a self post, or a post with an empty url);
    otherwise it returns the list of the [repr]s of its posts. *)
Theorem Subreddit_repr_raises (s : Subreddit) :
  (Subreddit_repr s = Raise TypeError
   <-> Exists (fun p => Post_comments p = None) (subreddit s))
  /\ (Forall (fun p => Post_comments p <> None) (subreddit s)
      <-> exists reprs,
            map_result Post_repr (subreddit s) = Ok reprs
            /\ Subreddit_repr s = Ok (list_repr reprs)).
Proof.
  unfold Subreddit_repr.
  destruct (map_result_Post_repr (subreddit s))
    as [[E Hex]|(reprs & E & Hall)]; rewrite E; simpl.
  - split; [tauto|]. split.
    + intros Hall. apply Exists_exists in Hex as (p & Hin & Hp).
      rewrite Forall_forall in Hall. elim (Hall p Hin Hp).
    + intros (r & H & _); discriminate.
  - split.
    + split; [discriminate|]. intros Hex.
      apply Exists_exists in Hex as (p & Hin & Hp).
      rewrite Forall_forall in Hall. elim (Hall p Hin Hp).
    + split; [|intros _; assumption].
      intros _; exists reprs; split; reflexivity.
Qed.

(** ** [html.escape] in the renderings *)

Lemma escape_char_plain (c : char) :
  html_special c = false -> escape_char c = [c].
Proof.
  unfold html_special, escape_char. intros H.
  repeat (apply orb_false_iff in H as [H ?]).
  repeat match goal with E : N.eqb _ _ = false |- _ => rewrite E; clear E end.
  reflexivity.
Qed.

Lemma escape_char_special (c x : char) :
  In x (escape_char c) -> html_special x = true -> x = amp.
Proof.
  destruct (html_special c) eqn:Hc.
  - unfold html_special in Hc. unfold escape_char.
    destruct (N.eqb_spec c amp); [|destruct (N.eqb_spec c lt);
      [|destruct (N.eqb_spec c gt); [|destruct (N.eqb_spec c dquote);
        [|destruct (N.eqb_spec c squote); [|discriminate Hc]]]]];
      intros Hin Hs; simpl in Hin;
      repeat (destruct Hin as [<-|Hin];
              [first [reflexivity | vm_compute in Hs; discriminate Hs]|]);
      destruct Hin.
  - rewrite escape_char_plain by assumption.
    intros [<-|[]] Hs; congruence.
Qed.

Lemma escape_char_length (c : char) : 1 <= length (escape_char c).
Proof.
  unfold escape_char.
  repeat match goal with |- context [N.eqb ?a ?b] => destruct (N.eqb a b) end;
    simpl; lia.
Qed.

(** X15. What [html.escape] hands to the link texts of [Threads.html] and
    [Post.html]: the only character it leaves that it would rewrite is the
    ampersand of an entity, so the text holds no angle bracket and no quote;
    a text without such characters is left as it is; and the escaped text is
    never shorter than the text. *)
Theorem html_escape_safe (s : str) :
  (forall c, In c (html_escape s) -> html_special c = true -> c = amp)
  /\ (forallb (fun c => negb (html_special c)) s = true ->
      html_escape s = s)
  /\ length s <= length (html_escape s).
Proof.
  rewrite html_escape_chars. split; [|split].
  - intros c Hin. apply in_flat_map in Hin as (x & _ & Hin).
    apply (escape_char_special x c Hin).
  - induction s as [|c s IH]; simpl; [reflexivity|].
    intros H. apply andb_true_iff in H as [Hc Hs].
    apply negb_true_iff in Hc.
    rewrite (escape_char_plain c Hc), IH by assumption; reflexivity.
  - induction s as [|c s IH]; simpl; [lia|].
    rewrite length_app. pose proof (escape_char_length c); lia.
Qed.

(** ** Subreddit and Feed keep every append *)

(** X16. A subreddit and a feed refuse nothing: after any appends they
    hold what they held, followed by every element appended, repetitions
    included, in the order of the appends; the name and the title stay. *)
Theorem Subreddit_Feed_appends (s : Subreddit) (posts : list Post)
    (f : Feed) (articles : list Article) :
  subreddit (Subreddit_appends s posts) = subreddit s ++ posts
  /\ Subreddit__name (Subreddit_appends s posts) = Subreddit__name s
  /\ feed (Feed_appends f articles) = feed f ++ articles
  /\ Feed__title (Feed_appends f articles) = Feed__title f.
Proof.
  split; [apply Subreddit_appends_posts|].
  split; [|split; [apply Feed_appends_articles|]].
  - revert s; induction posts as [|p posts IH]; intros s; [reflexivity|].
    unfold Subreddit_appends in *; simpl. rewrite IH; reflexivity.
  - revert f; induction articles as [|a articles IH]; intros f;
      [reflexivity|].
    unfold Feed_appends in *; simpl. rewrite IH; reflexivity.
Qed.

(** ** Mail equality *)

(** X17. Two mails are equal exactly when their urls are, whatever their
    subjects and authors; equality of mails is reflexive, symmetric and
    transitive. *)
Theorem Mail_eq_by_url :
  (forall s1 a1 u1 s2 a2 u2,
     Mail_eq (Mail_init s1 a1 u1) (Mail_init s2 a2 u2) = true <-> u1 = u2)
  /\ (forall m, Mail_eq m m = true)
  /\ (forall m1 m2, Mail_eq m1 m2 = Mail_eq m2 m1)
  /\ (forall m1 m2 m3,
        Mail_eq m1 m2 = true -> Mail_eq m2 m3 = true ->
        Mail_eq m1 m3 = true).
Proof.
  unfold Mail_eq. split; [|split; [|split]].
  - intros; simpl; apply str_eqb_eq.
  - intros; apply str_eqb_refl.
  - intros; apply str_eqb_sym.
  - intros m1 m2 m3 H12 H23. apply str_eqb_eq in H12, H23.
    apply str_eqb_eq; congruence.
Qed.

(** ** Threads: what [append] returns, from the history *)

(** X18. On a collection built by appends, [append] returns [False]
    exactly when a mail with the subject and the url of the item was
    appended before. *)
Theorem Threads_append_result_history (ms : list Mail) (m : Mail) :
  snd (Threads_append (Threads_appends Threads_init ms) m) =
  negb (existsb (same_subject_url m) ms).
Proof.
  pose proof (threads_inv_appends ms) as Hinv.
  destruct (existsb (same_subject_url m) ms) eqn:E; simpl.
  - apply existsb_same_subject_url in E.
    destruct (Threads_append_cases (Threads_appends Threads_init ms) m)
      as [emails G C|emails G C|G]; simpl; [reflexivity | |].
    + exfalso; apply C. apply (inv_group_urls Hinv _ _ G); assumption.
    + exfalso. apply dict_get_None in G. apply G, (inv_keys Hinv).
      apply in_map_iff in E as (m' & _ & Hm').
      apply filter_In in Hm' as [Hm' Hs]. apply str_eqb_eq in Hs.
      rewrite <- Hs; apply in_map; assumption.
  - destruct (Threads_append_cases (Threads_appends Threads_init ms) m)
      as [emails G C|emails G C|G]; simpl; try reflexivity.
    exfalso. apply (inv_group_urls Hinv _ _ G) in C.
    apply in_map_iff in C as (m' & Hu & Hm').
    apply filter_In in Hm' as [Hm' Hs].
    assert (existsb (same_subject_url m) ms = true); [|congruence].
    apply existsb_exists. exists m'; split; [assumption|].
    unfold same_subject_url. unfold subject_is in Hs. rewrite Hs; simpl.
    apply str_eqb_eq; assumption.
Qed.

(** ** The further properties at concrete inputs *)

Lemma sanitize_subject_suffix_witness :
  In rbracket (lit "[Dev] Build broke")
  /\ length (sanitize_subject (lit "[Dev] Build broke"))
     < length (lit "[Dev] Build broke").
Proof.
  assert (H : In rbracket (lit "[Dev] Build broke"))
    by (vm_compute; tauto).
  split; [exact H|].
  destruct (sanitize_subject_suffix (lit "[Dev] Build broke")) as (_ & _ & L).
  exact (L H).
Defined.

Lemma Threads_appends_extend_witness :
  let m1 := Mail_init (lit "[Dev] Build broke") (lit "alice")
              (lit "http://list/msg/1") in
  let m2 := Mail_init (lit "Build broke") (lit "bob")
              (lit "http://list/msg/2") in
  let m3 := Mail_init (lit "Lunch") (lit "carol")
              (lit "http://list/msg/3") in
  let t := [(lit "Build broke", [m1])] in
  dict_get t (lit "Build broke") = Some [m1]
  /\ (exists more,
        dict_get (Threads_appends t [m3; m2]) (lit "Build broke")
        = Some ([m1] ++ more))
  /\ (exists more,
        dict_keys (Threads_appends t [m3; m2]) = dict_keys t ++ more).
Proof.
  intros m1 m2 m3 t.
  assert (G : dict_get t (lit "Build broke") = Some [m1]) by reflexivity.
  split; [exact G|].
  exact (@Threads_appends_extend t [m3; m2] (lit "Build broke") [m1] G).
Defined.

Lemma Threads_append_wf_witness :
  let m1 := Mail_init (lit "[Dev] Build broke") (lit "alice")
              (lit "http://list/msg/1") in
  let m2 := Mail_init (lit "Build broke") (lit "bob")
              (lit "http://list/msg/2") in
  let t := [(lit "Build broke", [m1])] in
  threads_wf t /\ threads_wf (fst (Threads_append t m2)).
Proof.
  intros m1 m2 t.
  assert (W : threads_wf t).
  { split; repeat constructor; simpl; try tauto; discriminate. }
  split; [exact W|].
  exact (@Threads_append_wf t m2 W).
Defined.

Lemma Subreddit_repr_raises_witness :
  let p1 := Post_init (lit "t") (lit "http://u") false None in
  let p2 := Post_init (lit "self") (lit "http://v") true None in
  let s := Subreddit_appends (Subreddit_init (lit "r")) [p1; p2] in
  Exists (fun p => Post_comments p = None) (subreddit s)
  /\ Subreddit_repr s = Raise TypeError.
Proof.
  intros p1 p2 s.
  assert (H : Exists (fun p => Post_comments p = None) (subreddit s)).
  { apply Exists_cons_tl, Exists_cons_hd; reflexivity. }
  split; [exact H|].
  destruct (Subreddit_repr_raises s) as ((_ & R) & _).
  exact (R H).
Defined.

Lemma html_escape_safe_witness :
  forallb (fun c => negb (html_special c)) (lit "alice") = true
  /\ html_escape (lit "alice") = lit "alice".
Proof.
  assert (H : forallb (fun c => negb (html_special c)) (lit "alice") = true)
    by reflexivity.
  split; [exact H|].
  destruct (html_escape_safe (lit "alice")) as (_ & I & _).
  exact (I H).
Defined.

Lemma Mail_eq_by_url_witness :
  let m1 := Mail_init (lit "[Dev] Build broke") (lit "alice")
              (lit "http://list/msg/1") in
  let m2 := Mail_init (lit "Lunch") (lit "bob") (lit "http://list/msg/1") in
  let m3 := Mail_init (lit "Re: Lunch") (lit "carol")
              (lit "http://list/msg/1") in
  (Mail_eq m1 m2 = true /\ Mail_eq m2 m3 = true) /\ Mail_eq m1 m3 = true.
Proof.
  intros m1 m2 m3.
  assert (H12 : Mail_eq m1 m2 = true) by reflexivity.
  assert (H23 : Mail_eq m2 m3 = true) by reflexivity.
  split; [split; assumption|].
  destruct Mail_eq_by_url as (_ & _ & _ & T).
  exact (T m1 m2 m3 H12 H23).
Defined.

Lemma Threads_groups_first_occurrences_witness :
  let m1 := Mail_init (lit "[Dev] Build broke") (lit "alice")
              (lit "http://list/msg/1") in
  let m2 := Mail_init (lit "Build broke") (lit "bob")
              (lit "http://list/msg/2") in
  let m3 := Mail_init (lit "[Ops] Build broke") (lit "carol")
              (lit "http://list/msg/1") in
  ~ In (Mail_url m1) (map Mail_url [])
  /\ In m1 (keep_first ([] ++ m1 :: [m2; m3]))
  /\ dict_get (Threads_appends Threads_init [m1; m2; m3]) (lit "Build broke")
     = Some [m1; m2].
Proof.
  intros m1 m2 m3.
  assert (H : ~ In (Mail_url m1) (map Mail_url [])) by (simpl; tauto).
  destruct (Threads_groups_first_occurrences [m1; m2; m3] (lit "Build broke"))
    as (G & _ & F).
  split; [exact H|]. split; [exact (F [] m1 [m2; m3] H)|].
  rewrite G; reflexivity.
Defined.
